(** * Flowering-tree census: month ranges, colour blending, monthly aggregation

    A shallow embedding of [scripts/tree_census_h3_generator.py].

    Conventions of the embedding.
    - A Python [str] is a [string]; its characters are the code points
      0..255.
    - A Python exception is a constructor of [exn]; a computation that may
      raise has type [result A].
    - [int] is CPython's, with the default limit of 4300 digits on a
      decimal literal.
    - The prominence weights [1.0], [2.0], [3.0] and the channel sums are
      floats that hold integers; they are modelled in [Z].  Below 2^53 every
      product and sum is exact in binary64, and [int (x / total)] equals the
      integer quotient as long as a group has fewer than 2^43 rows.  Module
      [Binary64] checks the model against the binary64 operations on
      concrete inputs.
    - [h3.cell_to_boundary] is a parameter; [shapely.geometry.Polygon] is
      modelled by the ring it builds. *)

From Stdlib Require Import ZArith String Ascii List Lia QArith Lqa SpecFloat.
From stdpp Require Import gmap strings list sorting.

Local Open Scope string_scope.
Local Open Scope Z_scope.

(** ** Exceptions *)

Inductive exn : Type :=
  | ValueError
  | IndexError
  | KeyError
  | AttributeError.

Definition result (A : Type) : Type := exn + A.

Definition raise {A : Type} (e : exn) : result A := inl e.
Definition ret {A : Type} (a : A) : result A := inr a.

Definition bind {A B : Type} (m : result A) (k : A → result B) : result B :=
  match m with
  | inl e => inl e
  | inr a => k a
  end.

Notation "'let*' x ':=' m 'in' k" := (bind m (fun x => k))
  (at level 10, x pattern, m at level 200, k at level 200).

Definition fails {A : Type} (m : result A) : Prop := ∃ e, m = inl e.
Definition returns {A : Type} (m : result A) : Prop := ∃ a, m = inr a.

(** ** Python builtins *)

Module Py.

Definition code (c : ascii) : Z := Z.of_N (N_of_ascii c).

(** Characters that [int] skips around a literal. *)
Definition is_space (c : ascii) : bool :=
  let n := code c in
  ((9 <=? n) && (n <=? 13)) || (n =? 32) || (n =? 133) || (n =? 160).

(** Value of a character as a digit, in any base up to 36. *)
Definition digit_value (c : ascii) : option Z :=
  let n := code c in
  if (48 <=? n) && (n <=? 57) then Some (n - 48)
  else if (97 <=? n) && (n <=? 122) then Some (n - 97 + 10)
  else if (65 <=? n) && (n <=? 90) then Some (n - 65 + 10)
  else None.

Fixpoint lstrip_space (s : string) : string :=
  match s with
  | String c s' => if is_space c then lstrip_space s' else s
  | EmptyString => EmptyString
  end.

Fixpoint all_space (s : string) : bool :=
  match s with
  | String c s' => is_space c && all_space s'
  | EmptyString => true
  end.

(** The digit scan of [int]: digits of the base, single underscores
    between them.  [prev_us] tells whether the previous character was an
    underscore, [seen] whether a digit was read.  Returns the value and
    the unread rest. *)
Fixpoint scan_digits (base : Z) (s : string) (prev_us seen : bool) (acc : Z)
  : option (Z * string) :=
  let stop := if prev_us || negb seen then None else Some (acc, s) in
  match s with
  | EmptyString => stop
  | String c s' =>
      if Ascii.eqb c "_" then
        if prev_us then None else scan_digits base s' true seen acc
      else
        match digit_value c with
        | Some d =>
            if d <? base then scan_digits base s' false true (acc * base + d)
            else stop
        | None => stop
        end
  end.

Definition strip_sign (s : string) : Z * string :=
  match s with
  | String "+" s' => (1, s')
  | String "-" s' => (-1, s')
  | _ => (1, s)
  end.

Definition strip_base_prefix (base : Z) (s : string) : string :=
  match s with
  | String "0" (String x s') =>
      if (base =? 16) && (Ascii.eqb x "x" || Ascii.eqb x "X") then
        match s' with
        | String "_" s'' => s''
        | _ => s'
        end
      else s
  | _ => s
  end.

(** The number of digits that the scan reads: underscores are not
    counted, leading zeros are. *)
Fixpoint count_digits (base : Z) (s : string) : Z :=
  match s with
  | EmptyString => 0
  | String c s' =>
      if Ascii.eqb c "_" then count_digits base s'
      else
        match digit_value c with
        | Some d => if d <? base then 1 + count_digits base s' else 0
        | None => 0
        end
  end.

(** [sys.int_max_str_digits], at its default. *)
Definition max_str_digits : Z := 4300.

(** The limit on the number of digits holds for the bases that are not a
    power of two. *)
Definition power_of_two (base : Z) : bool :=
  (base =? 2) || (base =? 4) || (base =? 8) || (base =? 16) || (base =? 32).

(** [int(s, base)] for base 10 or 16. *)
Definition int (s : string) (base : Z) : result Z :=
  let '(sign, s1) := strip_sign (lstrip_space s) in
  let s2 := strip_base_prefix base s1 in
  match s2 with
  | String "_" _ => raise ValueError
  | _ =>
      match scan_digits base s2 false false 0 with
      | Some (v, rest) =>
          if all_space rest then
            if power_of_two base then ret (sign * v)
            else if max_str_digits <? count_digits base s2 then raise ValueError
            else ret (sign * v)
          else raise ValueError
      | None => raise ValueError
      end
  end.

(** [s.split(sep)] for a one-character separator. *)
Fixpoint split (sep : ascii) (s : string) : list string :=
  match s with
  | EmptyString => [EmptyString]
  | String c s' =>
      if Ascii.eqb c sep then EmptyString :: split sep s'
      else
        match split sep s' with
        | p :: ps => String c p :: ps
        | [] => [String c EmptyString]
        end
  end.

(** [s.lstrip(c)] for a one-character set. *)
Fixpoint lstrip (c : ascii) (s : string) : string :=
  match s with
  | String d s' => if Ascii.eqb d c then lstrip c s' else s
  | EmptyString => EmptyString
  end.

(** [s[i : j]] for natural [i <= j]. *)
Definition slice (s : string) (i j : nat) : string :=
  String.substring i (j - i) s.

End Py.

Module PyList.

(** [l[i]]: a negative index counts from the end, an index out of
    [-len, len) raises [IndexError]. *)
Definition index {A : Type} (l : list A) (i : Z) : result A :=
  let n := Z.of_nat (length l) in
  let j := if i <? 0 then i + n else i in
  if (j <? 0) || (n <=? j) then raise IndexError
  else
    match l !! Z.to_nat j with
    | Some x => ret x
    | None => raise IndexError
    end.

(** [range(lo, hi)] *)
Definition range (lo hi : Z) : list Z := seqZ lo (hi - lo).

End PyList.

(** ** Month ranges *)

Definition MONTHS : list string :=
  ["Jan"; "Feb"; "Mar"; "Apr"; "May"; "Jun";
   "Jul"; "Aug"; "Sep"; "Oct"; "Nov"; "Dec"].

(** [{m: False for m in MONTHS}] *)
Definition no_months : gmap string bool :=
  foldl (λ d m, <[m := false]> d) ∅ MONTHS.

(** [start_month, end_month = map(int, r.split("-"))] *)
Definition parse_segment (r : string) : result (Z * Z) :=
  match Py.split "-" r with
  | [x; y] =>
      let* start_month := Py.int x 10 in
      let* end_month := Py.int y 10 in
      ret (start_month, end_month)
  | _ => raise ValueError
  end.

(** The inner loop: [for i in ...: flowering_months[MONTHS[i]] = True]. *)
Fixpoint mark_months (flowering_months : gmap string bool) (idx : list Z)
  : result (gmap string bool) :=
  match idx with
  | [] => ret flowering_months
  | i :: idx' =>
      let* m := PyList.index MONTHS i in
      mark_months (<[m := true]> flowering_months) idx'
  end.

(** The outer loop over [range_text.split(";")]. *)
Fixpoint mark_segments (flowering_months : gmap string bool) (rs : list string)
  : result (gmap string bool) :=
  match rs with
  | [] => ret flowering_months
  | r :: rs' =>
      let* (start_month, end_month) := parse_segment r in
      let* flowering_months' :=
        mark_months flowering_months
          (PyList.range (start_month - 1) (end_month - 1 + 1)) in
      mark_segments flowering_months' rs'
  end.

Definition convert_text_range_to_months (range_text : string)
  : result (gmap string bool) :=
  mark_segments no_months (Py.split ";" range_text).

(** ** Colours *)

Module PyFormat.

Definition digit_char (d : Z) : ascii :=
  ascii_of_N (Z.to_N (if d <? 10 then 48 + d else 97 + (d - 10))).

(** Digits of a non-negative number, most significant first. *)
Fixpoint digits (fuel : nat) (base n : Z) (acc : string) : string :=
  match fuel with
  | O => acc
  | S fuel' =>
      let acc' := String (digit_char (n mod base)) acc in
      if n / base =? 0 then acc' else digits fuel' base (n / base) acc'
  end.

Definition unsigned (base n : Z) : string :=
  digits (S (Z.to_nat (Z.log2 n))) base n EmptyString.

(** [str(n)] *)
Definition str (n : Z) : string :=
  if n <? 0 then String "-" (unsigned 10 (- n)) else unsigned 10 n.

(** ["{:02x}".format(n)]: lowercase hexadecimal, sign first, zero padded
    to two characters. *)
Definition x02 (n : Z) : string :=
  if n <? 0 then String "-" (unsigned 16 (- n))
  else
    match unsigned 16 n with
    | String d EmptyString => String "0" (String d EmptyString)
    | s => s
    end.

End PyFormat.

Definition rgb : Type := Z * Z * Z.

Definition red (c : rgb) : Z := c.1.1.
Definition green (c : rgb) : Z := c.1.2.
Definition blue (c : rgb) : Z := c.2.

Definition hex_to_rgb (hex_color : string) : result rgb :=
  let hex_color := Py.lstrip "#" hex_color in
  let* r := Py.int (Py.slice hex_color 0 2) 16 in
  let* g := Py.int (Py.slice hex_color 2 4) 16 in
  let* b := Py.int (Py.slice hex_color 4 6) 16 in
  ret (r, g, b).

Definition rgb_to_hex (c : rgb) : string :=
  String "#" (PyFormat.x02 (red c) ++ PyFormat.x02 (green c) ++ PyFormat.x02 (blue c))%string.

(** ** Blending *)

(** The weights are the floats 1.0, 2.0 and 3.0. *)
Definition prominence_weights : gmap string Z :=
  <["low" := 1]> (<["med" := 2]> (<["high" := 3]> ∅)).

(** A row of [flowering_tree_df].  A missing cell (NaN or None) is
    [None]. *)
Record Row : Type := {
  TreeName : string;
  h3_index : string;
  colour : option string;
  prominence : option string;
  colour_hex : option string;
  month_columns : gmap string bool
}.

Definition notna {A : Type} (x : option A) : bool :=
  match x with Some _ => true | None => false end.

(** [d[k]] *)
Definition getitem {A : Type} (d : gmap string A) (k : string) : result A :=
  match d !! k with
  | Some v => ret v
  | None => raise KeyError
  end.

(** [sum(l)] *)
Definition sum (l : list Z) : Z := foldl Z.add 0 l.

(** [int(x / y)] on floats that hold the integers [x] and [y]. *)
Definition int_div (x y : Z) : Z := Z.quot x y.

(** A record takes part in the blend when both cells are present. *)
Definition contributes (row : Row) : bool :=
  notna (colour row) && notna (prominence row).

(** The loop over [group.iterrows()]: the lists [colors] and [weights]. *)
Fixpoint collect (group : list Row) : result (list rgb * list Z) :=
  match group with
  | [] => ret ([], [])
  | row :: group' =>
      if contributes row then
        let* c :=
          match colour_hex row with
          | Some h => hex_to_rgb h
          | None => raise AttributeError
          end in
        let* w :=
          match prominence row with
          | Some p => getitem prominence_weights p
          | None => raise KeyError
          end in
        let* (colors, weights) := collect group' in
        ret (c :: colors, w :: weights)
      else collect group'
  end.

Definition weighted (channel : rgb → Z) (colors : list rgb) (weights : list Z)
  : list Z :=
  zip_with (λ c w, channel c * w) colors weights.

Definition blend_colors_with_prominence (group : list Row)
  : result (option string) :=
  let* (colors, weights) := collect group in
  match colors with
  | [] => ret None
  | _ :: _ =>
      let total_weight := sum weights in
      if total_weight =? 0 then ret None
      else
        let r := int_div (sum (weighted red colors weights)) total_weight in
        let g := int_div (sum (weighted green colors weights)) total_weight in
        let b := int_div (sum (weighted blue colors weights)) total_weight in
        ret (Some (rgb_to_hex (r, g, b)))
  end.

(** ** The channel mean in binary64

    The same computation on IEEE 754 double precision numbers, after the
    Standard Library's specification of their operations.  It is used to
    check the integer model of [int(x / total_weight)] on concrete
    inputs. *)

Module Binary64.

Definition of_Z (z : Z) : spec_float := binary_normalize 53 1024 z 0 false.

Definition add : spec_float → spec_float → spec_float := SFadd 53 1024.
Definition mul : spec_float → spec_float → spec_float := SFmul 53 1024.
Definition div : spec_float → spec_float → spec_float := SFdiv 53 1024.

(** [sum(l)] *)
Definition fsum (l : list spec_float) : spec_float := foldl add (of_Z 0) l.

(** [int(x)]: the integer part; infinities and NaN raise. *)
Definition to_int (x : spec_float) : option Z :=
  match x with
  | S754_zero _ => Some 0
  | S754_finite s m e =>
      let v := if 0 <=? e then Z.pos m * 2 ^ e else Z.pos m / 2 ^ (- e) in
      Some (if s then - v else v)
  | S754_infinity _ | S754_nan => None
  end.

(** [int(sum(c * w for c, w in zip(colors, weights)) / sum(weights))] for
    one channel. *)
Definition channel_mean (channel : rgb → Z) (colors : list rgb)
    (weights : list Z) : option Z :=
  to_int (div (fsum (zip_with (λ c w, mul (of_Z (channel c)) (of_Z w)) colors weights))
              (fsum (of_Z <$> weights))).

End Binary64.

(** ** Monthly aggregation *)

(** One entry of [blended_colors]. *)
Record CellAggregate : Type := {
  cell_h3_index : string;
  cell_colour_hex : string;
  cell_tree_species : list string
}.

(** [flowering_tree_df[flowering_tree_df[month] == True]] *)
Definition flowering_in_month (df : list Row) (month : string) : list Row :=
  filter (λ row, month_columns row !! month = Some true) df.

(** [Series.unique()]: the distinct values in order of first appearance. *)
Fixpoint unique (l : list string) : list string :=
  match l with
  | [] => []
  | x :: l' => x :: filter (λ y, y ≠ x) (unique l')
  end.

Definition str_le (a b : string) : Prop := String.leb a b.

(** [df.groupby("h3_index")]: one group per distinct key, keys in sorted
    order, the rows of a group in their order in [df]. *)
Definition groupby_h3_index (df : list Row) : list (string * list Row) :=
  (λ k, (k, filter (λ row, h3_index row = k) df))
    <$> merge_sort str_le (unique (h3_index <$> df)).

(** [if blended_color:] *)
Definition truthy (blended_color : option string) : bool :=
  match blended_color with
  | Some (String _ _) => true
  | _ => false
  end.

(** The loop [for h3_index, group in h3_groups]. *)
Fixpoint blend_groups (h3_groups : list (string * list Row))
  : result (list CellAggregate) :=
  match h3_groups with
  | [] => ret []
  | (h3_index, group) :: rest =>
      let* blended_color := blend_colors_with_prominence group in
      let* blended_colors := blend_groups rest in
      match blended_color with
      | Some c =>
          if truthy blended_color then
            ret ({| cell_h3_index := h3_index;
                    cell_colour_hex := c;
                    cell_tree_species := unique (TreeName <$> group) |}
                 :: blended_colors)
          else ret blended_colors
      | None => ret blended_colors
      end
  end.

(** The list [blended_colors] that one month's iteration builds. *)
Definition blended_colors (df : list Row) (month : string)
  : result (list CellAggregate) :=
  blend_groups (groupby_h3_index (flowering_in_month df month)).

(** ** Cell polygons and output *)

Abbreviation point := (Q * Q)%type.

Definition point_eqb (p q : point) : bool :=
  Qeq_bool p.1 q.1 && Qeq_bool p.2 q.2.

(** A shapely polygon without holes: its exterior ring. *)
Record Polygon : Type := { exterior : list point }.

(** A linear ring repeats its first vertex at the end unless the sequence
    given is closed already. *)
Definition close_ring (shell : list point) : list point :=
  match shell, last shell with
  | p :: _, Some q => if point_eqb p q then shell else shell ++ [p]
  | _, _ => shell
  end.

(** [shapely.geometry.Polygon(shell)]: the shell is taken as a linear
    ring. *)
Definition shapely_Polygon (shell : list point) : Polygon :=
  {| exterior := close_ring shell |}.

Inductive OutputFormat : Type := png | geojson | both.

Record Args : Type := {
  resolution : Z;
  output_format : OutputFormat
}.

Record OutputFile : Type := {
  file_name : string;
  file_cells : list (CellAggregate * Polygon)
}.

Section HexGrid.

(** [h3.cell_to_boundary]: the vertices of a cell as (lat, lng) pairs. *)
Variable cell_to_boundary : string → list point.

Definition h3_cell_to_polygon (h3_index : string) : Polygon :=
  let boundary := cell_to_boundary h3_index in
  let polygon_coords := (λ p, let '(lat, lng) := p in (lng, lat)) <$> boundary in
  shapely_Polygon polygon_coords.

Definition output_name (args : Args) (month ext : string) : string :=
  ("h3_tree_distribution_" ++ month ++ "_resolution_"
     ++ PyFormat.str (resolution args) ++ ext)%string.

(** The files saved for a month, as [--output-format] selects them. *)
Definition save_outputs (args : Args) (month : string)
    (h3_cells : list (CellAggregate * Polygon)) : list OutputFile :=
  app
    (match output_format args with
     | png | both =>
         [{| file_name := output_name args month ".png";
             file_cells := h3_cells |}]
     | geojson => []
     end)
    (match output_format args with
     | geojson | both =>
         [{| file_name := output_name args month ".geojson";
             file_cells := h3_cells |}]
     | png => []
     end).

(** The body of [for month in MONTHS]: the files the iteration saves.  Each
    [continue] leaves the iteration without a file. *)
Definition month_iteration (args : Args) (df : list Row) (month : string)
  : result (list OutputFile) :=
  let flowering := flowering_in_month df month in
  if (length flowering =? 0)%nat then ret []
  else
    let h3_groups := groupby_h3_index flowering in
    if (length h3_groups =? 0)%nat then ret []
    else
      let* blended := blend_groups h3_groups in
      match blended with
      | [] => ret []
      | _ :: _ =>
          let h3_cells :=
            (λ a, (a, h3_cell_to_polygon (cell_h3_index a))) <$> blended in
          ret (save_outputs args month h3_cells)
      end.

(** The loop over the months; an exception ends the run. *)
Fixpoint run_months (args : Args) (df : list Row) (months : list string)
  : result (list OutputFile) :=
  match months with
  | [] => ret []
  | month :: months' =>
      let* files := month_iteration args df month in
      let* files' := run_months args df months' in
      ret (app files files')
  end.

End HexGrid.

(** * Vocabulary of the statements *)

(** [c] does not occur in [s]. *)
Fixpoint no_char (c : ascii) (s : string) : bool :=
  match s with
  | EmptyString => true
  | String d s' => negb (Ascii.eqb d c) && no_char c s'
  end.


(** [r] reads as two integers separated by a single dash: [a], then a
    dash, then [b], each as [int] reads it. *)
Definition segment_of (r : string) (a b : Z) : Prop :=
  ∃ x y, r = (x ++ String "-" y)%string ∧ no_char "-" x ∧ no_char "-" y ∧
         Py.int x 10 = inr a ∧ Py.int y 10 = inr b.

(** The semicolon-separated segments of [range_text] read as [segs]. *)
Definition segments_of (range_text : string) (segs : list (Z * Z)) : Prop :=
  Forall2 (λ r ab, segment_of r ab.1 ab.2) (Py.split ";" range_text) segs.

Definition malformed (r : string) : Prop := ¬ ∃ a b, segment_of r a b.

(** A month number of the calendar. *)
Definition in_year (k : Z) : Prop := 1 ≤ k ≤ 12.

(** The label of month number [k], counted from 1. *)
Definition month_label (k : Z) : option string :=
  if 1 <=? k then MONTHS !! Z.to_nat (k - 1) else None.

(** Month number [k] lies in [start, end] of some segment. *)
Definition covered (segs : list (Z * Z)) (k : Z) : bool :=
  existsb (λ ab, (ab.1 <=? k) && (k <=? ab.2)) segs.

(** [n] zeros in front of [s]. *)
Fixpoint zeros (n : nat) (s : string) : string :=
  match n with
  | O => s
  | S n' => String "0" (zeros n' s)
  end.

(** A segment with an endpoint outside the year. *)
Definition out_of_year (r : string) : Prop :=
  ∃ a b, segment_of r a b ∧ (¬ in_year a ∨ ¬ in_year b).

(** A segment whose index walk is not empty and runs past the last label. *)
Definition overrun (r : string) : Prop :=
  ∃ a b, segment_of r a b ∧ a ≤ b ∧ 12 < b.

(** The decoded colour of a row, when its [colour_hex] decodes. *)
Definition row_colour (row : Row) : option rgb :=
  match colour_hex row with
  | Some h => match hex_to_rgb h with inr c => Some c | inl _ => None end
  | None => None
  end.

(** The weight of a row, when its prominence is in the table. *)
Definition row_weight (row : Row) : option Z :=
  match prominence row with
  | Some p => prominence_weights !! p
  | None => None
  end.

Definition colour_of (row : Row) : rgb := default (0, 0, 0) (row_colour row).
Definition weight_of (row : Row) : Z := default 0 (row_weight row).

(** A row that the blend can take: when it contributes, its colour decodes
    and its prominence is one of the table. *)
Definition blendable (row : Row) : bool :=
  if contributes row
  then bool_decide (is_Some (row_colour row)) && bool_decide (is_Some (row_weight row))
  else true.

(** The rows of a group that take part in the blend. *)
Definition contributing (group : list Row) : list Row :=
  filter (λ row, contributes row) group.

Definition total_weight (group : list Row) : Z :=
  foldr (λ row acc, weight_of row + acc) 0 (contributing group).

Definition weighted_total (channel : rgb → Z) (group : list Row) : Z :=
  foldr (λ row acc, channel (colour_of row) * weight_of row + acc) 0
    (contributing group).

(** The total weight of a group, read off the rows and the weight table:
    the sum of the table's weights of the rows that take part; there is
    none when such a row has a prominence outside the table. *)
Fixpoint listed_total (group : list Row) : option Z :=
  match group with
  | [] => Some 0
  | row :: group' =>
      if contributes row then
        match row_weight row, listed_total group' with
        | Some w, Some t => Some (w + t)
        | _, _ => None
        end
      else listed_total group'
  end.

(** [q] is the mean [n / w] cut down to an integer. *)
Definition truncated_mean (n w q : Z) : Prop := q * w ≤ n < (q + 1) * w.

(** The channels of a colour are bytes. *)
Definition in_gamut (c : rgb) : Prop :=
  0 ≤ red c ≤ 255 ∧ 0 ≤ green c ≤ 255 ∧ 0 ≤ blue c ≤ 255.

Definition is_lower_hex (c : ascii) : bool :=
  let n := Py.code c in
  ((48 <=? n) && (n <=? 57)) || ((97 <=? n) && (n <=? 102)).

(** A hash sign followed by six lowercase hexadecimal digits. *)
Definition hex_colour (s : string) : bool :=
  match s with
  | String "#" t =>
      (String.length t =? 6)%nat && forallb is_lower_hex (list_ascii_of_string t)
  | _ => false
  end.

(** A row as the pipeline builds it: [colour_hex] is a copy of [colour]. *)
Definition census_row (name cell : string) (c p : option string)
    (months : gmap string bool) : Row :=
  {| TreeName := name; h3_index := cell; colour := c; prominence := p;
     colour_hex := c; month_columns := months |}.

Definition red_high : Row :=
  census_row "Gulmohar" "8b60145a0000fff" (Some "#ff0000") (Some "high") no_months.

Definition blue_low : Row :=
  census_row "Jacaranda" "8b60145a0000fff" (Some "#0000ff") (Some "low") no_months.

Definition no_colour_low : Row :=
  census_row "Neem" "8b60145a0000fff" None (Some "low") no_months.

Definition odd_prominence : Row :=
  census_row "Tabebuia" "8b60145a0000fff" (Some "#ffff00") (Some "very high") no_months.

(** The entry that the loop over the groups appends for one group, if any. *)
Definition cell_of (kg : string * list Row) : option CellAggregate :=
  match blend_colors_with_prominence kg.2 with
  | inr (Some c) =>
      if truthy (Some c)
      then Some {| cell_h3_index := kg.1;
                   cell_colour_hex := c;
                   cell_tree_species := unique (TreeName <$> kg.2) |}
      else None
  | _ => None
  end.

(** The rows of [df] that flower in [month] and lie in cell [k]. *)
Definition rows_of_cell (df : list Row) (month k : string) : list Row :=
  filter (λ row, h3_index row = k) (flowering_in_month df month).

Definition january : gmap string bool := <["Jan" := true]> no_months.

(** Two trees of one cell that flower in January; the second has no
    prominence. *)
Definition two_species : list Row :=
  [census_row "Gulmohar" "8b60145a0000fff" (Some "#ff0000") (Some "high") january;
   census_row "Neem" "8b60145a0000fff" (Some "#00ff00") None january].

(** A census of three trees; none of them flowers in February. *)
Definition small_census : list Row :=
  [census_row "Gulmohar" "8b60145a0000fff" (Some "#ff0000") (Some "high") january;
   census_row "Neem" "8b60145a0001fff" (Some "#00ff00") None january;
   census_row "Jacaranda" "8b60145a0000fff" (Some "#0000ff") (Some "low") january].

(** A boundary for the examples: a triangle, as (lat, lng) pairs. *)
Definition triangle : list point := [(0, 0); (0, 1); (1, 0)]%Q.

(** Planar geometry of a ring of vertices. *)

Definition point_eq (p q : point) : Prop := (p.1 == q.1)%Q ∧ (p.2 == q.2)%Q.

(** [p] lies on the segment from [a] to [b]. *)
Definition on_segment (p a b : point) : Prop :=
  ∃ t : Q, (0 <= t)%Q ∧ (t <= 1)%Q ∧
           (p.1 == a.1 + t * (b.1 - a.1))%Q ∧ (p.2 == a.2 + t * (b.2 - a.2))%Q.

(** The edges of a ring join consecutive vertices. *)
Fixpoint edges (ring : list point) : list (point * point) :=
  match ring with
  | a :: (b :: _) as ring' => (a, b) :: edges ring'
  | _ => []
  end.

(** The ring ends where it starts. *)
Definition closed (ring : list point) : Prop :=
  ∃ p q, head ring = Some p ∧ last ring = Some q ∧ point_eq p q.

(** Two edges of the ring meet only where one follows the other, at the
    vertex they share; the last edge is followed by the first. *)
Definition simple (ring : list point) : Prop :=
  ∀ i j e e' p,
    (i < j)%nat → edges ring !! i = Some e → edges ring !! j = Some e' →
    on_segment p e.1 e.2 → on_segment p e'.1 e'.2 →
    (j = S i ∧ point_eq p e.2) ∨
    (i = 0%nat ∧ S j = length (edges ring) ∧ point_eq p e.1).

(** A vertex, from (lat, lng) to (x, y) = (lng, lat). *)
Definition lng_lat (p : point) : point := (p.2, p.1).

(** * Further vocabulary *)

(** Every character, in code order. *)
Definition all_ascii : list ascii := ascii_of_nat <$> seq 0 256.

(** A hexadecimal digit of either case. *)
Definition is_hex_digit (c : ascii) : bool :=
  match Py.digit_value c with
  | Some d => d <? 16
  | None => false
  end.

Definition hex_value (c : ascii) : Z := default 0 (Py.digit_value c).

(** The value of two hexadecimal digits. *)
Definition byte_of (hi lo : ascii) : Z := 16 * hex_value hi + hex_value lo.

(** The lowercase form of an ASCII capital; any other character is kept. *)
Definition lower_char (c : ascii) : ascii :=
  let n := Py.code c in
  if (65 <=? n) && (n <=? 90) then ascii_of_N (Z.to_N (n + 32)) else c.

Fixpoint lower (s : string) : string :=
  match s with
  | EmptyString => EmptyString
  | String c s' => String (lower_char c) (lower s')
  end.

(** The string made of the six characters. *)
Definition six (d1 d2 d3 d4 d5 d6 : ascii) (rest : string) : string :=
  String d1 (String d2 (String d3 (String d4 (String d5 (String d6 rest))))).

(** [n] hash signs. *)
Fixpoint hashes (n : nat) : string :=
  match n with
  | O => EmptyString
  | S n' => String "#" (hashes n')
  end.

(** The plain sum of one channel over the rows that take part in the
    blend. *)
Definition channel_total (channel : rgb → Z) (group : list Row) : Z :=
  foldr (λ row acc, channel (colour_of row) + acc) 0 (contributing group).

Definition black_low : Row :=
  census_row "Peepal" "8b60145a0000fff" (Some "#000000") (Some "low") no_months.

Definition bad_colour : Row :=
  census_row "Champa" "8b60145a0000fff" (Some "white") (Some "med") no_months.

(** The cells of the files of a month: every aggregate with the polygon of
    its cell. *)
Definition cells_with_geometry (cell_to_boundary : string → list point)
    (aggs : list CellAggregate) : list (CellAggregate * Polygon) :=
  (λ a, (a, h3_cell_to_polygon cell_to_boundary (cell_h3_index a))) <$> aggs.

(** The three characters of a file name where the month label stands. *)
Definition name_month (name : string) : string := String.substring 21 3 name.

(** Trees of three cells that flower in January, listed with the cells out
    of order. *)
Definition three_cells : list Row :=
  [census_row "Jacaranda" "8b60145a0002fff" (Some "#0000ff") (Some "low") january;
   census_row "Gulmohar" "8b60145a0000fff" (Some "#ff0000") (Some "high") january;
   census_row "Tabebuia" "8b60145a0001fff" (Some "#ffff00") (Some "med") january;
   census_row "Gulmohar" "8b60145a0002fff" (Some "#ff0000") (Some "high") january].
(** * Properties *)

(** ** The error monad *)

Lemma bind_inr {A B : Type} (m : result A) (k : A → result B) (b : B) :
  bind m k = inr b ↔ ∃ a, m = inr a ∧ k a = inr b.
Proof.
  destruct m as [e|a]; simpl; split.
  - discriminate.
  - intros (a & Ha & _). discriminate.
  - eauto.
  - intros (a' & [= <-] & Hk). exact Hk.
Qed.

Lemma bind_inl {A B : Type} (m : result A) (k : A → result B) (e : exn) :
  bind m k = inl e ↔ m = inl e ∨ ∃ a, m = inr a ∧ k a = inl e.
Proof.
  destruct m as [e'|a]; simpl; split.
  - intros [= <-]. by left.
  - intros [[= <-]|(a & Ha & _)]; [done | discriminate].
  - intros Hk. right. eauto.
  - intros [Hm|(a' & [= <-] & Hk)]; [discriminate | done].
Qed.

Lemma fails_or_returns {A : Type} (m : result A) : fails m ∨ returns m.
Proof. destruct m as [e|a]; [left | right]; eexists; reflexivity. Qed.

Lemma fails_not_returns {A : Type} (m : result A) : fails m ↔ ¬ returns m.
Proof.
  split.
  - intros [e ->] [a Ha]. discriminate.
  - intros Hn. destruct m as [e|a]; [by exists e | destruct Hn; by exists a].
Qed.

(** ** Splitting strings *)

Lemma split_nonempty sep s : Py.split sep s ≠ [].
Proof.
  destruct s as [|c s]; simpl; [done|].
  destruct (Ascii.eqb c sep); [done|]. by destruct (Py.split sep s).
Qed.

Lemma split_no_char sep x : no_char sep x → Py.split sep x = [x].
Proof.
  induction x as [|c x IH]; simpl; [done|].
  destruct (Ascii.eqb c sep); simpl; [done|]. intros H. by rewrite IH.
Qed.

Lemma split_app sep x y :
  no_char sep x → Py.split sep (x ++ String sep y) = x :: Py.split sep y.
Proof.
  induction x as [|c x IH]; simpl.
  - intros _. by rewrite Ascii.eqb_refl.
  - destruct (Ascii.eqb c sep); simpl; [done|]. intros H. by rewrite IH.
Qed.

Lemma split_cons_inv sep s p ps :
  Py.split sep s = p :: ps →
  no_char sep p ∧
  ((ps = [] ∧ s = p) ∨ (∃ s', s = (p ++ String sep s')%string ∧ Py.split sep s' = ps)).
Proof.
  revert p ps. induction s as [|c s IH]; simpl; intros p ps.
  - intros [= <- <-]. split; [done|]. by left.
  - destruct (Ascii.eqb c sep) eqn:Ec.
    + intros [= <- <-]. split; [done|]. right. exists s.
      apply Ascii.eqb_eq in Ec. by subst.
    + destruct (Py.split sep s) as [|q qs] eqn:Es.
      { by destruct (split_nonempty sep s). }
      intros [= <- <-]. destruct (IH q qs eq_refl) as [Hq Hs].
      split; [simpl; by rewrite Ec|].
      destruct Hs as [[-> ->]|(s' & -> & Hs')]; [by left|].
      right. by exists s'.
Qed.

Lemma split_pieces_no_char sep s : Forall (λ p, no_char sep p) (Py.split sep s).
Proof.
  remember (Py.split sep s) as ps eqn:E. symmetry in E. revert s E.
  induction ps as [|p ps IH]; intros s E; [done|].
  destruct (split_cons_inv _ _ _ _ E) as [Hp [[-> _]|(s' & _ & Hs')]].
  - by constructor.
  - constructor; [done|]. by apply (IH s').
Qed.

(** ** Reading integers *)

Lemma digit_value_nonneg c d : Py.digit_value c = Some d → 0 ≤ d.
Proof.
  unfold Py.digit_value. intros H.
  repeat match type of H with
         | (if ?b then _ else _) = _ => destruct b eqn:?
         end; simplify_eq; lia.
Qed.

Lemma scan_digits_nonneg base s prev seen acc v rest :
  0 ≤ base → 0 ≤ acc →
  Py.scan_digits base s prev seen acc = Some (v, rest) → 0 ≤ v.
Proof.
  intros Hb. revert prev seen acc.
  induction s as [|c s IH]; intros prev seen acc Hacc; simpl.
  - destruct (prev || negb seen); [done|]. by intros [= <- _].
  - destruct (Ascii.eqb c "_").
    { destruct prev; [done|]. by apply IH. }
    destruct (Py.digit_value c) as [d|] eqn:Ed.
    + destruct (d <? base).
      * apply IH. apply digit_value_nonneg in Ed. nia.
      * destruct (prev || negb seen); [done|]. by intros [= <- _].
    + destruct (prev || negb seen); [done|]. by intros [= <- _].
Qed.

Lemma lstrip_space_no_char c s : no_char c s → no_char c (Py.lstrip_space s).
Proof.
  induction s as [|d s IH]; simpl; [done|].
  destruct (Py.is_space d); simpl; [|done].
  intros [_ H]%andb_prop_elim. by apply IH.
Qed.

Lemma strip_sign_no_dash s : no_char "-" s → Py.strip_sign s = (1, s) ∨
  ∃ s', s = String "+" s' ∧ Py.strip_sign s = (1, s').
Proof.
  destruct s as [|c s]; [by left|]. intros H.
  destruct (decide (c = "-"%char)) as [->|Hm]; [done|].
  destruct (decide (c = "+"%char)) as [->|Hp]; [right; by exists s|].
  left. unfold Py.strip_sign.
  destruct c as [[] [] [] [] [] [] [] []]; try reflexivity; congruence.
Qed.

Lemma int_body_nonneg base s2 sign a :
  0 ≤ base → 0 ≤ sign →
  match Py.scan_digits base s2 false false 0 with
  | Some (v, rest) =>
      if Py.all_space rest then
        if Py.power_of_two base then ret (sign * v)
        else if Py.max_str_digits <? Py.count_digits base s2 then raise ValueError
        else ret (sign * v)
      else raise ValueError
  | None => raise ValueError
  end = inr a → 0 ≤ a.
Proof.
  intros Hb Hs.
  destruct (Py.scan_digits base s2 false false 0) as [[v rest]|] eqn:E; [|done].
  apply scan_digits_nonneg in E; [|done..].
  destruct (Py.all_space rest); [|done].
  destruct (Py.power_of_two base); [intros [= <-]; nia|].
  destruct (Py.max_str_digits <? Py.count_digits base s2); [done|].
  intros [= <-]. nia.
Qed.

(** A literal without a dash is not negative. *)
Lemma int_nonneg x base a :
  0 ≤ base → no_char "-" x → Py.int x base = inr a → 0 ≤ a.
Proof.
  intros Hb Hx%(lstrip_space_no_char "-"). unfold Py.int.
  assert (∃ s1, Py.strip_sign (Py.lstrip_space x) = (1, s1)) as [s1 ->].
  { destruct (strip_sign_no_dash _ Hx) as [->|(s' & _ & ->)]; eauto. }
  destruct (Py.strip_base_prefix base s1) as [|c s2'] eqn:E2.
  { apply int_body_nonneg; [done | lia]. }
  destruct (decide (c = "_"%char)) as [->|Hc]; [done|].
  intros H. apply (int_body_nonneg base (String c s2') 1); [done | lia |].
  destruct c as [[] [] [] [] [] [] [] []]; try exact H; congruence.
Qed.

Lemma parse_segment_spec r a b :
  parse_segment r = inr (a, b) ↔ segment_of r a b.
Proof.
  unfold parse_segment, segment_of. split.
  - destruct (Py.split "-" r) as [|x [|y [|z zs]]] eqn:E; try done.
    destruct (split_cons_inv _ _ _ _ E) as [Hx [[? _]|(s' & -> & E')]]; [done|].
    destruct (split_cons_inv _ _ _ _ E') as [Hy [[_ ->]|(s'' & _ & E'')]].
    + intros (a' & Ha & (b' & Hb & [= <- <-])%bind_inr)%bind_inr.
      by exists x, y.
    + by destruct (split_nonempty "-" s'').
  - intros (x & y & -> & Hx & Hy & Ha & Hb).
    rewrite split_app, split_no_char by done.
    rewrite Ha, Hb. reflexivity.
Qed.

Lemma parse_segment_malformed r :
  fails (parse_segment r) ↔ malformed r.
Proof.
  unfold malformed. rewrite fails_not_returns. split.
  - intros Hn (a & b & H). apply Hn. exists (a, b). by apply parse_segment_spec.
  - intros Hn [[a b] H]. apply Hn. exists a, b. by apply parse_segment_spec.
Qed.

Lemma parse_segment_nonneg r a b :
  parse_segment r = inr (a, b) → 0 ≤ a ∧ 0 ≤ b.
Proof.
  intros (x & y & _ & Hx & Hy & Ha & Hb)%parse_segment_spec.
  split; [apply (int_nonneg x 10) | apply (int_nonneg y 10)]; done || lia.
Qed.

(** ** The month labels *)

Lemma MONTHS_NoDup : NoDup MONTHS.
Proof. apply (bool_decide_unpack _). by vm_compute. Qed.

Lemma in_year_cases k :
  in_year k ↔ k ∈ [1; 2; 3; 4; 5; 6; 7; 8; 9; 10; 11; 12].
Proof.
  unfold in_year. rewrite !elem_of_cons, elem_of_nil. lia.
Qed.

Lemma month_label_index k :
  in_year k →
  ∃ m, month_label k = Some m ∧ PyList.index MONTHS (k - 1) = inr m.
Proof.
  rewrite in_year_cases, !elem_of_cons, elem_of_nil.
  intros H. repeat destruct H as [->|H]; try (eexists; split; reflexivity).
  done.
Qed.

Lemma month_label_in k m : month_label k = Some m → m ∈ MONTHS.
Proof.
  unfold month_label. destruct (1 <=? k); [|done].
  apply list_elem_of_lookup_2.
Qed.

Lemma month_label_inj k k' m :
  month_label k = Some m → month_label k' = Some m → k = k'.
Proof.
  unfold month_label.
  destruct (1 <=? k) eqn:Hk; [|done]. destruct (1 <=? k') eqn:Hk'; [|done].
  intros H H'. pose proof (NoDup_lookup _ _ _ _ MONTHS_NoDup H H'). lia.
Qed.

Lemma index_in_MONTHS i m : PyList.index MONTHS i = inr m → m ∈ MONTHS.
Proof.
  unfold PyList.index.
  destruct (_ || _); [done|].
  destruct (MONTHS !! _) as [m'|] eqn:E; [|done].
  intros [= <-]. by eapply list_elem_of_lookup_2.
Qed.

Lemma index_MONTHS_fails i :
  fails (PyList.index MONTHS i) ↔ i < -12 ∨ 12 ≤ i.
Proof.
  unfold PyList.index, fails.
  change (Z.of_nat (length MONTHS)) with 12.
  destruct (i <? 0) eqn:Hneg.
  - destruct ((i + 12 <? 0) || (12 <=? i + 12)) eqn:Hb.
    + split; [intros _; lia | intros _; by eexists].
    + destruct (lookup_lt_is_Some_2 MONTHS (Z.to_nat (i + 12))) as [m ->].
      { change (length MONTHS) with 12%nat. lia. }
      split; [by intros [e He] | lia].
  - destruct ((i <? 0) || (12 <=? i)) eqn:Hb.
    + split; [intros _; lia | intros _; by eexists].
    + destruct (lookup_lt_is_Some_2 MONTHS (Z.to_nat i)) as [m ->].
      { change (length MONTHS) with 12%nat. lia. }
      split; [by intros [e He] | lia].
Qed.

(** ** The inner loop *)

Lemma mark_months_fails fm idx :
  fails (mark_months fm idx) ↔ Exists (λ i, i < -12 ∨ 12 ≤ i) idx.
Proof.
  revert fm. induction idx as [|i idx IH]; intros fm; simpl.
  - rewrite Exists_nil. split; [by intros [e He] | done].
  - rewrite Exists_cons, <- index_MONTHS_fails.
    destruct (PyList.index MONTHS i) as [e|m] eqn:E; simpl.
    + split; [intros _; left | intros _]; by exists e.
    + rewrite IH. split; [by right | intros [[e He]|H]; done].
Qed.

Lemma range_fails fm a b :
  0 ≤ a →
  fails (mark_months fm (PyList.range (a - 1) (b - 1 + 1))) ↔ a ≤ b ∧ 12 < b.
Proof.
  intros Ha. rewrite mark_months_fails, Exists_exists. unfold PyList.range.
  split.
  - intros (i & Hi%elem_of_seqZ & Hout). lia.
  - intros [Hab Hb]. exists (b - 1). rewrite elem_of_seqZ. lia.
Qed.

(** What a range with its indices inside the list leaves behind. *)
Lemma mark_months_range fm a b :
  1 ≤ a → b ≤ 12 →
  ∃ fm', mark_months fm (PyList.range (a - 1) (b - 1 + 1)) = inr fm' ∧
    (∀ k m, in_year k → month_label k = Some m →
       fm' !! m = if (a <=? k) && (k <=? b) then Some true else fm !! m) ∧
    (∀ m, m ∉ MONTHS → fm' !! m = fm !! m).
Proof.
  unfold PyList.range. replace (b - 1 + 1 - (a - 1)) with (b - a + 1) by lia.
  remember (Z.to_nat (b - a + 1)) as n eqn:En.
  revert fm a En. induction n as [|n IH]; intros fm a En Ha Hb.
  - rewrite seqZ_nil by lia. exists fm. split; [done|]. split; [|done].
    intros k m _ _. destruct (a <=? k) eqn:?, (k <=? b) eqn:?; simpl; try done. lia.
  - rewrite seqZ_cons by lia. simpl.
    destruct (month_label_index a) as (ma & Hma & ->); [unfold in_year; lia|]. simpl.
    replace (Z.succ (a - 1)) with (a + 1 - 1) by lia.
    replace (Z.pred (b - a + 1)) with (b - (a + 1) + 1) by lia.
    destruct (IH (<[ma:=true]> fm) (a + 1)) as (fm' & -> & Hin & Hout); [lia..|].
    exists fm'. split; [done|]. split.
    + intros k m Hk Hm. rewrite (Hin k m Hk Hm).
      destruct (decide (k = a)) as [->|Hne].
      * assert (m = ma) as -> by congruence. rewrite lookup_insert_eq.
        destruct (a + 1 <=? a) eqn:?, (a <=? a) eqn:?, (a <=? b) eqn:?; simpl; try done; lia.
      * rewrite lookup_insert_ne.
        { destruct (a + 1 <=? k) eqn:?, (a <=? k) eqn:?, (k <=? b) eqn:?; simpl; try done; lia. }
        intros <-. apply Hne. by eapply month_label_inj.
    + intros m Hm. rewrite (Hout m Hm). apply lookup_insert_ne.
      intros <-. apply Hm. by eapply month_label_in.
Qed.

(** ** The outer loop *)

Lemma segment_of_functional r a b a' b' :
  segment_of r a b → segment_of r a' b' → a = a' ∧ b = b'.
Proof.
  intros H%parse_segment_spec H'%parse_segment_spec.
  rewrite H in H'. by injection H'.
Qed.

Lemma mark_segments_fails fm rs :
  fails (mark_segments fm rs) ↔
  Exists (λ r, malformed r ∨ ∃ a b, segment_of r a b ∧ a ≤ b ∧ 12 < b) rs.
Proof.
  revert fm. induction rs as [|r rs IH]; intros fm; simpl.
  - rewrite Exists_nil. split; [by intros [e He] | done].
  - rewrite Exists_cons, <- parse_segment_malformed.
    destruct (parse_segment r) as [e|[a b]] eqn:E; simpl.
    + split; [intros _; left; left | intros _]; by exists e.
    + pose proof (parse_segment_nonneg _ _ _ E) as [Ha _].
      pose proof (range_fails fm a b Ha) as Hr.
      apply parse_segment_spec in E.
      destruct (mark_months fm _) as [e|fm'] eqn:Em; simpl.
      * split; [intros _ | intros _; by exists e].
        left. right. exists a, b. split; [done|]. apply Hr. by exists e.
      * rewrite IH. split; [by right|].
        intros [[[e He]|(a' & b' & Hs & Hab)]|H]; [done| |done].
        destruct (segment_of_functional _ _ _ _ _ E Hs) as [<- <-].
        apply Hr in Hab as [e He]. done.
Qed.

Lemma mark_segments_calendar fm rs segs :
  Forall2 (λ r ab, segment_of r ab.1 ab.2) rs segs →
  Forall (λ ab, 1 ≤ ab.1 ∧ ab.2 ≤ 12) segs →
  ∃ cal, mark_segments fm rs = inr cal ∧
    (∀ k m, in_year k → month_label k = Some m →
       cal !! m = if covered segs k then Some true else fm !! m) ∧
    (∀ m, m ∉ MONTHS → cal !! m = fm !! m).
Proof.
  intros H. revert fm. induction H as [|r [a b] rs segs Hr _ IH]; intros fm Hin.
  - exists fm. by repeat split.
  - apply Forall_cons in Hin as [[Ha Hb] Hin]. simpl in *.
    apply parse_segment_spec in Hr. rewrite Hr. simpl.
    destruct (mark_months_range fm a b Ha Hb) as (fm' & -> & Hin' & Hout'). simpl.
    destruct (IH fm' Hin) as (cal & -> & Hcal & Hcal').
    exists cal. split; [done|]. split.
    + intros k m Hk Hm. rewrite (Hcal k m Hk Hm), (Hin' k m Hk Hm).
      by destruct (covered segs k), ((a <=? k) && (k <=? b)).
    + intros m Hm. by rewrite (Hcal' m Hm), (Hout' m Hm).
Qed.

Lemma no_months_label k m :
  in_year k → month_label k = Some m → no_months !! m = Some false.
Proof.
  rewrite in_year_cases, !elem_of_cons, elem_of_nil.
  intros H. repeat destruct H as [->|H]; [intros [= <-]; by vm_compute..|done].
Qed.

Lemma no_months_other m : m ∉ MONTHS → no_months !! m = None.
Proof.
  unfold MONTHS, no_months. rewrite !not_elem_of_cons. simpl. intros H.
  repeat (destruct H as [? H]).
  rewrite !lookup_insert_ne by congruence. apply lookup_empty.
Qed.

(** The calendar of a string whose segments stay inside the year. *)
Lemma convert_calendar range_text segs :
  segments_of range_text segs →
  Forall (λ ab, 1 ≤ ab.1 ∧ ab.2 ≤ 12) segs →
  ∃ cal, convert_text_range_to_months range_text = inr cal ∧
    (∀ k m, in_year k → month_label k = Some m →
       cal !! m = Some (covered segs k)) ∧
    (∀ m, m ∉ MONTHS → cal !! m = None).
Proof.
  intros Hs Hin. unfold convert_text_range_to_months.
  destruct (mark_segments_calendar no_months _ _ Hs Hin) as (cal & -> & H1 & H2).
  exists cal. split; [done|]. split.
  - intros k m Hk Hm. rewrite (H1 k m Hk Hm), (no_months_label k m Hk Hm).
    by destruct (covered segs k).
  - intros m Hm. by rewrite (H2 m Hm), no_months_other.
Qed.

Lemma covered_app segs segs' k :
  covered (segs ++ segs') k = covered segs k || covered segs' k.
Proof. apply existsb_app. Qed.

Lemma covered_spec segs k :
  covered segs k ↔ ∃ a b, (a, b) ∈ segs ∧ a ≤ k ≤ b.
Proof.
  unfold covered. rewrite Is_true_true, existsb_exists. split.
  - intros ([a b] & Hin%list_elem_of_In & H). exists a, b. simpl in H. split; [done|lia].
  - intros (a & b & Hin%list_elem_of_In & H). exists (a, b). split; [done|]. simpl. lia.
Qed.

(** The plain decimal spelling of two month numbers around a dash is a
    segment that reads as these numbers. *)
Lemma segment_of_decimal a b :
  in_year a → in_year b →
  segment_of (PyFormat.str a ++ String "-" (PyFormat.str b)) a b.
Proof.
  rewrite !in_year_cases, !elem_of_cons, !elem_of_nil.
  intros Ha Hb. apply parse_segment_spec.
  repeat destruct Ha as [->|Ha]; try done;
    repeat destruct Hb as [->|Hb]; try done; by vm_compute.
Qed.

(** ** Month ranges: the claims *)

Ltac read_segments :=
  unfold segments_of; repeat constructor; apply parse_segment_spec; reflexivity.

Example calendar_3_5 :
  convert_text_range_to_months "3-5" =
    inr (<["Mar" := true]> (<["Apr" := true]> (<["May" := true]> no_months))).
Proof. by vm_compute. Qed.

Example calendar_1_2_11_12 :
  convert_text_range_to_months "1-2;11-12" =
    convert_text_range_to_months "11-12;1-2".
Proof. by vm_compute. Qed.

(** A decimal literal of more than 4300 digits is refused, leading zeros
    counted. *)
Example long_literal_refused :
  convert_text_range_to_months ("1-" ++ zeros 4300 "5") = inl ValueError ∧
  convert_text_range_to_months ("1-" ++ zeros 4299 "5") =
    convert_text_range_to_months "1-5".
Proof. split; by vm_compute. Qed.

(** C1, as the spec states it, fails on the code: ["0-3"] is a segment of two
    integers whose first endpoint is outside [1,12], and the parser returns a
    calendar for it. *)
Lemma C1_out_of_year_accepted :
  out_of_year "0-3" ∧ ¬ fails (convert_text_range_to_months "0-3").
Proof.
  split.
  - exists 0, 3. split; [by apply parse_segment_spec|].
    left. unfold in_year. lia.
  - intros [e He]. vm_compute in He. discriminate.
Qed.

(** C1 (amended): the parser fails exactly when some segment does not read
    as two integers separated by a single dash, or some segment with
    start <= end has its end above 12.  ["13-14"] and ["5"] fail, and every
    string whose segments read as pairs with both endpoints in [1,12] is
    parsed without error. *)
Theorem C1_parse_failure :
  (∀ range_text,
     fails (convert_text_range_to_months range_text) ↔
     Exists (λ r, malformed r ∨ overrun r) (Py.split ";" range_text)) ∧
  fails (convert_text_range_to_months "13-14") ∧
  fails (convert_text_range_to_months "5") ∧
  (∀ range_text segs,
     segments_of range_text segs →
     Forall (λ ab, in_year ab.1 ∧ in_year ab.2) segs →
     returns (convert_text_range_to_months range_text)).
Proof.
  split; [|split; [|split]].
  - intros range_text. apply mark_segments_fails.
  - by exists IndexError.
  - by exists ValueError.
  - intros range_text segs Hs Hin.
    destruct (convert_calendar range_text segs Hs) as (cal & -> & _).
    + eapply Forall_impl; [exact Hin|]. unfold in_year. intros ab. simpl. lia.
    + by exists cal.
Qed.

Lemma C1_parse_failure_witness :
  segments_of "3-5;7-7" [(3, 5); (7, 7)] ∧
  Forall (λ ab, in_year ab.1 ∧ in_year ab.2) [(3, 5); (7, 7)] ∧
  returns (convert_text_range_to_months "3-5;7-7").
Proof.
  assert (segments_of "3-5;7-7" [(3, 5); (7, 7)]) as Hs by read_segments.
  assert (Forall (λ ab, in_year ab.1 ∧ in_year ab.2) [(3, 5); (7, 7)]) as Hin.
  { repeat constructor; simpl; lia. }
  split; [exact Hs|]. split; [exact Hin|].
  exact (proj2 (proj2 (proj2 C1_parse_failure)) _ _ Hs Hin).
Defined.

(** C4: for a string whose segments read as pairs [start-end] with both
    endpoints in [1,12] and start <= end, the parser returns a calendar over
    the twelve labels in which a month is true exactly when its number lies
    in [start, end] of at least one segment. *)
Theorem C4_calendar_of_ranges range_text segs :
  segments_of range_text segs →
  Forall (λ ab, in_year ab.1 ∧ in_year ab.2 ∧ ab.1 ≤ ab.2) segs →
  ∃ cal, convert_text_range_to_months range_text = inr cal ∧
    (∀ k m, in_year k → month_label k = Some m →
       (cal !! m = Some true ↔ ∃ a b, (a, b) ∈ segs ∧ a ≤ k ≤ b) ∧
       (cal !! m = Some false ↔ ¬ ∃ a b, (a, b) ∈ segs ∧ a ≤ k ≤ b)) ∧
    (∀ m, m ∉ MONTHS → cal !! m = None).
Proof.
  intros Hs Hin.
  destruct (convert_calendar range_text segs Hs) as (cal & Hc & Hcal & Hout).
  { eapply Forall_impl; [exact Hin|]. unfold in_year. intros ab. simpl. lia. }
  exists cal. split; [done|]. split; [|done].
  intros k m Hk Hm. rewrite (Hcal k m Hk Hm), <- covered_spec.
  destruct (covered segs k); simpl; split; split; try done; intros H; try tauto.
  all: try (exfalso; by apply H).
Qed.

Lemma C4_calendar_of_ranges_witness :
  ∃ cal, convert_text_range_to_months "3-5" = inr cal ∧
    (∀ k m, in_year k → month_label k = Some m →
       (cal !! m = Some true ↔ ∃ a b, (a, b) ∈ [(3, 5)] ∧ a ≤ k ≤ b) ∧
       (cal !! m = Some false ↔ ¬ ∃ a b, (a, b) ∈ [(3, 5)] ∧ a ≤ k ≤ b)) ∧
    (∀ m, m ∉ MONTHS → cal !! m = None).
Proof.
  apply (C4_calendar_of_ranges "3-5" [(3, 5)]).
  - read_segments.
  - repeat constructor; simpl; lia.
Defined.

(** C5: a segment whose end is below its start, both in [1,12], marks no
    month: the parser returns, and the calendar is the one the other
    segments give.  There is no wrap across the end of the year. *)
Theorem C5_reversed_segment range_text before a b after :
  segments_of range_text (before ++ (a, b) :: after) →
  Forall (λ ab, in_year ab.1 ∧ in_year ab.2) (before ++ (a, b) :: after) →
  b < a →
  ∃ cal, convert_text_range_to_months range_text = inr cal ∧
    ∀ k m, in_year k → month_label k = Some m →
      cal !! m = Some (covered (before ++ after) k).
Proof.
  intros Hs Hin Hba.
  destruct (convert_calendar range_text _ Hs) as (cal & Hc & Hcal & _).
  { eapply Forall_impl; [exact Hin|]. unfold in_year. intros ab. simpl. lia. }
  exists cal. split; [done|].
  intros k m Hk Hm. rewrite (Hcal k m Hk Hm), !covered_app. do 2 f_equal.
  simpl. destruct (a <=? k) eqn:?, (k <=? b) eqn:?; simpl; try done. lia.
Qed.

Lemma C5_reversed_segment_witness :
  ∃ cal, convert_text_range_to_months "11-2" = inr cal ∧
    ∀ k m, in_year k → month_label k = Some m → cal !! m = Some false.
Proof.
  destruct (C5_reversed_segment "11-2" [] 11 2 []) as (cal & Hc & Hcal).
  - read_segments.
  - repeat constructor; simpl; lia.
  - lia.
  - exists cal. split; [exact Hc|]. intros k m Hk Hm. exact (Hcal k m Hk Hm).
Defined.

(** ** Sums *)

Lemma sum_foldr l : sum l = foldr Z.add 0 l.
Proof.
  unfold sum. assert (∀ a, foldl Z.add a l = a + foldr Z.add 0 l) as H.
  { induction l as [|x l IH]; intros a; simpl; [lia|]. rewrite IH. lia. }
  rewrite H. lia.
Qed.

Lemma sum_cons x l : sum (x :: l) = x + sum l.
Proof. by rewrite !sum_foldr. Qed.

Lemma sum_fmap {A : Type} (f : A → Z) (l : list A) :
  sum (f <$> l) = foldr (λ x acc, f x + acc) 0 l.
Proof.
  induction l as [|x l IH]; [done|]. rewrite fmap_cons, sum_cons, IH. done.
Qed.

Lemma foldr_add_Permutation {A : Type} (f : A → Z) (l l' : list A) :
  l ≡ₚ l' → foldr (λ x acc, f x + acc) 0 l = foldr (λ x acc, f x + acc) 0 l'.
Proof.
  induction 1 as [|x l l' _ IH|x y l|l l' l'' _ IH _ IH']; simpl; lia.
Qed.

Lemma weighted_fmap {A : Type} channel (f : A → rgb) (g : A → Z) (l : list A) :
  weighted channel (f <$> l) (g <$> l) = (λ x, channel (f x) * g x) <$> l.
Proof.
  unfold weighted. induction l as [|x l IH]; [done|].
  rewrite !fmap_cons. cbn [zip_with]. by rewrite IH.
Qed.

(** ** The weight table *)

Lemma prominence_weights_lookup p w :
  prominence_weights !! p = Some w ↔
  (p = "low" ∧ w = 1) ∨ (p = "med" ∧ w = 2) ∨ (p = "high" ∧ w = 3).
Proof.
  unfold prominence_weights.
  destruct (decide (p = "low")) as [->|H1].
  { rewrite lookup_insert_eq. split; [intros [= <-]; by left|].
    intros [[_ ->]|[[? _]|[? _]]]; done. }
  rewrite lookup_insert_ne by done.
  destruct (decide (p = "med")) as [->|H2].
  { rewrite lookup_insert_eq. split; [intros [= <-]; right; by left|].
    intros [[? _]|[[_ ->]|[? _]]]; done. }
  rewrite lookup_insert_ne by done.
  destruct (decide (p = "high")) as [->|H3].
  { rewrite lookup_insert_eq. split; [intros [= <-]; right; by right|].
    intros [[? _]|[[? _]|[_ ->]]]; done. }
  rewrite lookup_insert_ne by done. rewrite lookup_empty.
  split; [done|]. intros [[? _]|[[? _]|[? _]]]; done.
Qed.

Lemma prominence_weights_none p :
  prominence_weights !! p = None ↔ p ∉ ["low"; "med"; "high"].
Proof.
  rewrite !not_elem_of_cons, eq_None_not_Some. unfold is_Some.
  split.
  - intros H. repeat split; try apply not_elem_of_nil; intros ->; apply H; eexists; reflexivity.
  - intros (H1 & H2 & H3 & _) [w Hw].
    apply prominence_weights_lookup in Hw as [[? _]|[[? _]|[? _]]]; done.
Qed.

Lemma row_weight_range row w : row_weight row = Some w → 1 ≤ w ≤ 3.
Proof.
  unfold row_weight. destruct (prominence row) as [p|]; [|done].
  intros [[_ ->]|[[_ ->]|[_ ->]]]%prominence_weights_lookup; lia.
Qed.

(** ** The collection loop *)

Lemma blendable_contributes row :
  blendable row → contributes row →
  ∃ h c p w, colour_hex row = Some h ∧ hex_to_rgb h = inr c ∧
             prominence row = Some p ∧ prominence_weights !! p = Some w ∧
             colour_of row = c ∧ weight_of row = w ∧ 1 ≤ w ≤ 3.
Proof.
  unfold blendable. intros Hb Hc. rewrite (Is_true_true_1 _ Hc) in Hb.
  apply andb_prop_elim in Hb as [[c Hcol]%bool_decide_unpack [w Hw]%bool_decide_unpack].
  pose proof (row_weight_range _ _ Hw) as Hr.
  unfold colour_of, weight_of. rewrite Hcol, Hw. simpl.
  unfold row_colour in Hcol. unfold row_weight in Hw.
  destruct (colour_hex row) as [h|]; [|done].
  destruct (hex_to_rgb h) as [|c'] eqn:Eh; [done|].
  destruct (prominence row) as [p|]; [|done].
  exists h, c, p, w. by simplify_eq.
Qed.

Lemma contributing_cons row group :
  contributing (row :: group) =
    if contributes row then row :: contributing group else contributing group.
Proof.
  unfold contributing. rewrite filter_cons.
  destruct (contributes row); by case_decide.
Qed.

Lemma collect_blendable group :
  Forall (λ row, blendable row) group →
  collect group =
    inr (colour_of <$> contributing group, weight_of <$> contributing group).
Proof.
  induction 1 as [|row group Hrow _ IH]; [done|].
  rewrite contributing_cons. simpl.
  destruct (contributes row) eqn:Ec; [|done].
  destruct (blendable_contributes row Hrow) as (h & c & p & w & -> & -> & -> & Hw & <- & <- & _).
  { by rewrite Ec. }
  simpl. unfold getitem. rewrite Hw. simpl. by rewrite IH.
Qed.

Lemma contributing_nil group :
  contributing group = [] ↔ Forall (λ row, contributes row = false) group.
Proof.
  induction group as [|row group IH]; [done|].
  rewrite Forall_cons, contributing_cons. destruct (contributes row) eqn:Ec.
  - split; [done|]. by intros [? _].
  - rewrite IH. tauto.
Qed.

Lemma collect_length group cs ws :
  collect group = inr (cs, ws) →
  length cs = length (contributing group) ∧ length ws = length (contributing group).
Proof.
  revert cs ws.
  induction group as [|row group IH]; intros cs ws.
  - by intros [= <- <-].
  - rewrite contributing_cons. simpl. destruct (contributes row) eqn:Ec; [|apply IH].
    intros (c & _ & (w & _ & ([cs' ws'] & H & [= <- <-])%bind_inr)%bind_inr)%bind_inr.
    destruct (IH _ _ H) as [E1 E2]. simpl. by rewrite E1, E2.
Qed.

Lemma total_weight_pos group :
  Forall (λ row, blendable row) group →
  contributing group ≠ [] → 0 < total_weight group.
Proof.
  intros Hb. unfold total_weight.
  assert (Forall (λ row, 1 ≤ weight_of row) (contributing group)) as Hw.
  { unfold contributing. apply Forall_forall. intros row [Hc Hin]%list_elem_of_filter.
    rewrite Forall_forall in Hb.
    destruct (blendable_contributes row (Hb row Hin) Hc) as (_ & _ & _ & w & _ & _ & _ & _ & _ & -> & ?).
    lia. }
  induction Hw as [|row l Hrow Hl IH]; [done|]. intros _. simpl.
  destruct l as [|row' l]; [simpl; lia|]. specialize (IH ltac:(done)). lia.
Qed.

(** ** The blend *)

Lemma sum_weights group :
  sum (weight_of <$> contributing group) = total_weight group.
Proof. apply sum_fmap. Qed.

Lemma sum_weighted channel group :
  sum (weighted channel (colour_of <$> contributing group)
         (weight_of <$> contributing group)) = weighted_total channel group.
Proof. rewrite weighted_fmap. apply (sum_fmap (λ row, channel (colour_of row) * weight_of row)). Qed.

(** The blend of a group whose rows raise nothing. *)
Lemma blend_blendable group :
  Forall (λ row, blendable row) group →
  blend_colors_with_prominence group =
    inr (match contributing group with
         | [] => None
         | _ :: _ =>
             Some (rgb_to_hex
                     (int_div (weighted_total red group) (total_weight group),
                      int_div (weighted_total green group) (total_weight group),
                      int_div (weighted_total blue group) (total_weight group)))
         end).
Proof.
  intros Hb. unfold blend_colors_with_prominence.
  rewrite (collect_blendable group Hb). simpl.
  rewrite sum_weights, !sum_weighted.
  pose proof (total_weight_pos group Hb) as Hpos.
  destruct (contributing group) as [|row rows]; [done|].
  rewrite fmap_cons.
  destruct (Z.eqb_spec (total_weight group) 0) as [E|_]; [|done].
  specialize (Hpos ltac:(done)). lia.
Qed.

Lemma total_weight_Permutation group group' :
  group ≡ₚ group' → total_weight group = total_weight group'.
Proof.
  intros H. unfold total_weight, contributing.
  apply (foldr_add_Permutation weight_of). by rewrite H.
Qed.

Lemma weighted_total_Permutation channel group group' :
  group ≡ₚ group' → weighted_total channel group = weighted_total channel group'.
Proof.
  intros H. unfold weighted_total, contributing.
  apply (foldr_add_Permutation (λ row, channel (colour_of row) * weight_of row)).
  by rewrite H.
Qed.

Lemma blend_Permutation group group' :
  Forall (λ row, blendable row) group → group ≡ₚ group' →
  blend_colors_with_prominence group' = blend_colors_with_prominence group.
Proof.
  intros Hb Hp.
  assert (Forall (λ row, blendable row) group') as Hb' by by rewrite <- Hp.
  rewrite (blend_blendable group Hb), (blend_blendable group' Hb').
  rewrite <- (total_weight_Permutation _ _ Hp).
  rewrite <- !(weighted_total_Permutation _ _ _ Hp).
  assert (contributing group ≡ₚ contributing group') as Hc.
  { unfold contributing. by rewrite Hp. }
  destruct (contributing group) as [|r rs], (contributing group') as [|r' rs']; try done.
  - by apply Permutation_nil_cons in Hc.
  - symmetry in Hc. by apply Permutation_nil_cons in Hc.
Qed.

Lemma weighted_total_bounds channel group lo hi :
  Forall (λ row, blendable row) group →
  (∀ row, row ∈ contributing group → lo ≤ channel (colour_of row) ≤ hi) →
  lo * total_weight group ≤ weighted_total channel group ≤ hi * total_weight group.
Proof.
  intros Hb Hch. unfold total_weight, weighted_total.
  assert (Forall (λ row, 1 ≤ weight_of row ∧ lo ≤ channel (colour_of row) ≤ hi)
            (contributing group)) as H.
  { apply Forall_forall. intros row Hin. split; [|by apply Hch].
    unfold contributing in Hin. apply list_elem_of_filter in Hin as [Hc Hin].
    rewrite Forall_forall in Hb.
    destruct (blendable_contributes row (Hb row Hin) Hc)
      as (_ & _ & _ & w & _ & _ & _ & _ & _ & -> & ?). lia. }
  clear Hb Hch. induction H as [|row rows [Hw Hc] _ IH]; simpl; [lia|]. nia.
Qed.

(** Cutting the mean down keeps it between bounds of the inputs. *)
Lemma int_div_bounds n w lo hi :
  0 < w → 0 ≤ lo → lo * w ≤ n ≤ hi * w →
  lo ≤ int_div n w ≤ hi ∧ truncated_mean n w (int_div n w).
Proof.
  intros Hw Hlo Hn. unfold int_div, truncated_mean.
  rewrite Z.quot_div_nonneg by nia.
  pose proof (Z.div_mod n w ltac:(lia)). pose proof (Z.mod_pos_bound n w Hw).
  split; [split|]; nia.
Qed.

(** ** Hexadecimal colours *)

Lemma forall_byte (P : Z → bool) :
  forallb P (seqZ 0 256) = true → ∀ n, 0 ≤ n ≤ 255 → P n = true.
Proof.
  intros H n Hn. rewrite forallb_forall in H. apply H.
  apply list_elem_of_In, elem_of_seqZ. lia.
Qed.

Lemma x02_byte n :
  0 ≤ n ≤ 255 →
  ∃ d1 d2, PyFormat.x02 n = String d1 (String d2 EmptyString) ∧
           is_lower_hex d1 ∧ is_lower_hex d2 ∧
           Py.int (String d1 (String d2 EmptyString)) 16 = inr n.
Proof.
  intros Hn.
  pose proof (forall_byte
    (λ n, match PyFormat.x02 n with
          | String d1 (String d2 EmptyString) =>
              is_lower_hex d1 && is_lower_hex d2 &&
              match Py.int (String d1 (String d2 EmptyString)) 16 with
              | inr m => m =? n
              | inl _ => false
              end
          | _ => false
          end) ltac:(by vm_compute) n Hn) as H.
  simpl in H.
  destruct (PyFormat.x02 n) as [|d1 [|d2 [|]]]; try done.
  apply andb_prop in H as [[H1 H2]%andb_prop H].
  exists d1, d2. rewrite H1, H2.
  destruct (Py.int _ 16) as [|m]; [done|]. apply Z.eqb_eq in H as ->. done.
Qed.

Lemma lower_hex_not_hash d : is_lower_hex d → Ascii.eqb d "#" = false.
Proof.
  intros H. destruct (Ascii.eqb_spec d "#") as [->|]; done.
Qed.

(** Encoding a colour with byte channels gives a well-formed string that
    decodes to the same colour. *)
Lemma rgb_to_hex_gamut c :
  in_gamut c → hex_colour (rgb_to_hex c) ∧ hex_to_rgb (rgb_to_hex c) = inr c.
Proof.
  destruct c as [[r g] b]. unfold in_gamut, red, green, blue. simpl.
  intros (Hr & Hg & Hb).
  destruct (x02_byte r Hr) as (r1 & r2 & Er & Hr1 & Hr2 & Ir).
  destruct (x02_byte g Hg) as (g1 & g2 & Eg & Hg1 & Hg2 & Ig).
  destruct (x02_byte b Hb) as (b1 & b2 & Eb & Hb1 & Hb2 & Ib).
  unfold rgb_to_hex, red, green, blue. simpl. rewrite Er, Eg, Eb. simpl. split.
  - apply Is_true_true in Hr1, Hr2, Hg1, Hg2, Hb1, Hb2.
    by rewrite Hr1, Hr2, Hg1, Hg2, Hb1, Hb2.
  - unfold hex_to_rgb. simpl. rewrite (lower_hex_not_hash r1 Hr1).
    unfold Py.slice. simpl. rewrite Ir, Ig, Ib. done.
Qed.

(** ** The integer model against binary64 *)

(** The channels of red at weight 3 with blue at weight 1, in either
    order. *)
Example binary64_red_blue :
  Binary64.channel_mean red [(255, 0, 0); (0, 0, 255)] [3; 1] = Some 191 ∧
  Binary64.channel_mean green [(255, 0, 0); (0, 0, 255)] [3; 1] = Some 0 ∧
  Binary64.channel_mean blue [(255, 0, 0); (0, 0, 255)] [3; 1] = Some 63 ∧
  Binary64.channel_mean red [(0, 0, 255); (255, 0, 0)] [1; 3] = Some 191 ∧
  Binary64.channel_mean blue [(0, 0, 255); (255, 0, 0)] [1; 3] = Some 63.
Proof. by vm_compute. Qed.

(** For every total weight up to 12 and every weighted sum of byte channels
    for it, the binary64 quotient cut down to an integer is the integer
    quotient. *)
Lemma binary64_quotient_small w n :
  1 ≤ w ≤ 12 → 0 ≤ n ≤ 255 * w →
  Binary64.to_int (Binary64.div (Binary64.of_Z n) (Binary64.of_Z w)) =
    Some (int_div n w).
Proof.
  intros Hw Hn.
  assert (forallb (λ w, forallb (λ n,
            match Binary64.to_int (Binary64.div (Binary64.of_Z n) (Binary64.of_Z w)) with
            | Some q => q =? int_div n w
            | None => false
            end) (seqZ 0 (255 * w + 1))) (seqZ 1 12) = true) as H by by vm_compute.
  rewrite forallb_forall in H. specialize (H w).
  rewrite forallb_forall in H. specialize (H ltac:(apply list_elem_of_In, elem_of_seqZ; lia) n).
  specialize (H ltac:(apply list_elem_of_In, elem_of_seqZ; lia)).
  destruct (Binary64.to_int _) as [q|]; [|done]. by apply Z.eqb_eq in H as ->.
Qed.

(** ** Blending: the claims *)

(** C3: on a non-empty group of records with valid colours and prominences
    the blend is, per channel, the weighted mean of the channel values with
    weights low = 1, med = 2, high = 3, cut down to an integer and encoded
    in hexadecimal; it does not depend on the order of the group.  Red at
    high prominence with blue at low prominence gives ["#bf003f"] in either
    order. *)
Theorem C3_weighted_mean :
  (∀ group,
     group ≠ [] →
     Forall (λ row, contributes row ∧ blendable row ∧ in_gamut (colour_of row)) group →
     ∃ r g b,
       blend_colors_with_prominence group = inr (Some (rgb_to_hex (r, g, b))) ∧
       truncated_mean (weighted_total red group) (total_weight group) r ∧
       truncated_mean (weighted_total green group) (total_weight group) g ∧
       truncated_mean (weighted_total blue group) (total_weight group) b ∧
       (∀ row, row ∈ group →
          (prominence row = Some "low" ∧ weight_of row = 1) ∨
          (prominence row = Some "med" ∧ weight_of row = 2) ∨
          (prominence row = Some "high" ∧ weight_of row = 3)) ∧
       (∀ group', group' ≡ₚ group →
          blend_colors_with_prominence group' = blend_colors_with_prominence group)) ∧
  blend_colors_with_prominence [red_high; blue_low] = inr (Some "#bf003f") ∧
  blend_colors_with_prominence [blue_low; red_high] = inr (Some "#bf003f").
Proof.
  split; [|split; by vm_compute].
  intros group Hne Hall.
  assert (Forall (λ row, blendable row) group) as Hb.
  { eapply Forall_impl; [exact Hall|]. by intros row (_ & ? & _). }
  assert (contributing group = group) as Hc.
  { unfold contributing. clear Hne Hb.
    induction Hall as [|row rows (Hrow & _) _ IH]; [done|].
    rewrite filter_cons_True by done. by rewrite IH. }
  assert (∀ channel, (∀ c, in_gamut c → 0 ≤ channel c ≤ 255) →
            truncated_mean (weighted_total channel group) (total_weight group)
              (int_div (weighted_total channel group) (total_weight group))) as Hmean.
  { intros channel Hch.
    eapply (int_div_bounds _ _ 0 255); [|lia|].
    - apply total_weight_pos; [done|]. by rewrite Hc.
    - apply weighted_total_bounds; [done|].
      rewrite Hc. intros row Hin. apply Hch.
      rewrite Forall_forall in Hall. by apply (Hall row Hin). }
  eexists _, _, _. split; [|split; [|split; [|split; [|split]]]].
  - rewrite (blend_blendable group Hb), Hc. by destruct group.
  - apply Hmean. by intros c (? & _ & _).
  - apply Hmean. by intros c (_ & ? & _).
  - apply Hmean. by intros c (_ & _ & ?).
  - intros row Hin. rewrite Forall_forall in Hall.
    destruct (Hall row Hin) as (Hcon & Hbl & _).
    destruct (blendable_contributes row Hbl Hcon)
      as (_ & _ & p & w & _ & _ & -> & Hw & _ & -> & _).
    apply prominence_weights_lookup in Hw as [[-> ->]|[[-> ->]|[-> ->]]]; auto.
  - intros group' Hp. by apply blend_Permutation.
Qed.

Lemma C3_weighted_mean_witness :
  ∃ r g b,
    blend_colors_with_prominence [red_high; blue_low] = inr (Some (rgb_to_hex (r, g, b))) ∧
    truncated_mean (3 * 255 + 1 * 0) 4 r ∧
    truncated_mean 0 4 g ∧
    truncated_mean (3 * 0 + 1 * 255) 4 b.
Proof.
  destruct (proj1 C3_weighted_mean [red_high; blue_low])
    as (r & g & b & Hblend & Hr & Hg & Hb & _).
  - done.
  - repeat constructor; by vm_compute.
  - exists r, g, b. split; [exact Hblend|]. split; [exact Hr|]. split; [exact Hg | exact Hb].
Defined.

Lemma collect_weights group cs ws :
  collect group = inr (cs, ws) → Forall (λ w, 1 ≤ w ≤ 3) ws.
Proof.
  revert cs ws. induction group as [|row group IH]; intros cs ws; simpl.
  - by intros [= <- <-].
  - destruct (contributes row); [|apply IH].
    intros (c & _ & (w & Hw & ([cs' ws'] & H & [= <- <-])%bind_inr)%bind_inr)%bind_inr.
    constructor; [|by eapply IH].
    destruct (prominence row) as [p|]; [|done].
    unfold getitem in Hw. destruct (prominence_weights !! p) as [w'|] eqn:E; [|done].
    injection Hw as <-.
    apply prominence_weights_lookup in E as [[_ ->]|[[_ ->]|[_ ->]]]; lia.
Qed.

Lemma sum_weights_pos ws : Forall (λ w, 1 ≤ w ≤ 3) ws → ws ≠ [] → 0 < sum ws.
Proof.
  rewrite sum_foldr. induction 1 as [|w ws Hw Hws IH]; [done|]. intros _. simpl.
  destruct ws as [|w' ws]; [simpl; lia|]. specialize (IH ltac:(done)). lia.
Qed.

Lemma listed_total_zero group :
  listed_total group = Some 0 ↔ Forall (λ row, contributes row = false) group.
Proof.
  assert (∀ g t, listed_total g = Some t →
            0 ≤ t ∧ (t = 0 → Forall (λ row, contributes row = false) g)) as Hpos.
  { intros g. induction g as [|row g IH]; intros t; simpl.
    - intros [= <-]. by split.
    - destruct (contributes row) eqn:Ec.
      + destruct (row_weight row) as [w|] eqn:Ew; [|done].
        destruct (listed_total g) as [t'|]; [|done]. intros [= <-].
        apply row_weight_range in Ew. destruct (IH t' eq_refl) as [? _].
        split; [lia|]. intros ?. lia.
      + intros H. destruct (IH t H) as [? Hz]. split; [done|].
        intros ->. constructor; [done | by apply Hz]. }
  split.
  - intros H. by apply (Hpos group 0 H).
  - induction 1 as [|row g Hrow _ IH]; [done|]. simpl. by rewrite Hrow.
Qed.

(** C6: the blend is absent exactly when no record of the group has both a
    colour and a prominence; an empty group is such a group, and the total
    weight of the records that take part, read off the weight table, is
    zero for such a group only.  So the blend is absent exactly when the
    group is empty, or that total weight is zero, or no record has both a
    colour and a prominence. *)
Theorem C6_blend_absent group :
  (blend_colors_with_prominence group = inr None ↔
   Forall (λ row, contributes row = false) group) ∧
  (blend_colors_with_prominence group = inr None ↔
   group = [] ∨ listed_total group = Some 0 ∨
   Forall (λ row, contributes row = false) group).
Proof.
  assert (blend_colors_with_prominence group = inr None ↔
          Forall (λ row, contributes row = false) group) as Hiff.
  { unfold blend_colors_with_prominence. split.
    - intros ([colors weights] & Hcol & H)%bind_inr.
      destruct (collect_length _ _ _ Hcol) as [Hlc Hlw].
      destruct colors as [|c colors].
      + apply contributing_nil. by apply nil_length_inv.
      + exfalso. pose proof (collect_weights _ _ _ Hcol) as Hw.
        assert (weights ≠ []) as Hne.
        { intros ->. simpl in Hlc, Hlw. rewrite <- Hlw in Hlc. done. }
        pose proof (sum_weights_pos weights Hw Hne).
        destruct (Z.eqb_spec (sum weights) 0); [lia | done].
    - intros Hnone. rewrite collect_blendable.
      + apply contributing_nil in Hnone. by rewrite Hnone.
      + eapply Forall_impl; [exact Hnone|]. intros row Hrow.
        unfold blendable. by rewrite Hrow. }
  split; [exact Hiff|]. rewrite Hiff, listed_total_zero. split.
  - intros H. by right; right.
  - intros [->|[H|H]]; [constructor | done | done].
Qed.

Lemma C6_blend_absent_witness :
  blend_colors_with_prominence [] = inr None ∧
  blend_colors_with_prominence [no_colour_low] = inr None.
Proof.
  split.
  - apply (proj2 (proj2 (C6_blend_absent []))). by left.
  - apply (proj2 (proj1 (C6_blend_absent [no_colour_low]))).
    by repeat constructor.
Defined.

(** C9: a record with a colour and a prominence outside low, med and high
    makes the blend of any group that holds it raise; when its colour
    decodes, the blend of a group that starts with it raises [KeyError] at
    that record. *)
Theorem C9_unrecognized_prominence row p :
  contributes row → prominence row = Some p → p ∉ ["low"; "med"; "high"] →
  (∀ group, row ∈ group → fails (blend_colors_with_prominence group)) ∧
  (∀ rest, is_Some (row_colour row) →
     blend_colors_with_prominence (row :: rest) = inl KeyError).
Proof.
  intros Hc Hp Hnot%prominence_weights_none.
  assert (∀ rest, fails (collect (row :: rest)) ∧
            (is_Some (row_colour row) → collect (row :: rest) = inl KeyError)) as Hrow.
  { intros rest. simpl. rewrite (Is_true_true_1 _ Hc), Hp.
    unfold row_colour, getitem. rewrite Hnot.
    destruct (colour_hex row) as [h|]; simpl.
    - destruct (hex_to_rgb h) as [e|c]; simpl.
      + split; [by exists e | by intros [? ?]].
      + split; [by exists KeyError | done].
    - split; [by exists AttributeError | by intros [? ?]]. }
  split.
  - intros group Hin. unfold blend_colors_with_prominence.
    assert (fails (collect group)) as [e ->]; [|by exists e].
    induction group as [|row' group IH]; [by apply elem_of_nil in Hin|].
    apply elem_of_cons in Hin as [<-|Hin]; [apply Hrow|].
    specialize (IH Hin). destruct IH as [e He]. simpl.
    destruct (contributes row'); [|by exists e].
    destruct (match colour_hex row' with Some h => hex_to_rgb h | None => _ end) as [e1|c];
      [by exists e1|]. simpl.
    destruct (match prominence row' with Some p' => getitem _ p' | None => _ end) as [e2|w];
      [by exists e2|]. simpl.
    rewrite He. by exists e.
  - intros rest Hcol. unfold blend_colors_with_prominence.
    by rewrite (proj2 (Hrow rest) Hcol).
Qed.

Lemma C9_unrecognized_prominence_witness :
  fails (blend_colors_with_prominence [red_high; odd_prominence; blue_low]) ∧
  blend_colors_with_prominence [odd_prominence; blue_low] = inl KeyError.
Proof.
  destruct (C9_unrecognized_prominence odd_prominence "very high") as [H1 H2].
  - done.
  - done.
  - rewrite !not_elem_of_cons. repeat split; try done. apply not_elem_of_nil.
  - split.
    + apply H1. set_solver.
    + apply H2. by eexists.
Defined.

(** ** Distinct values and groups *)

Lemma elem_of_unique x l : x ∈ unique l ↔ x ∈ l.
Proof.
  induction l as [|y l IH]; [done|]. simpl.
  rewrite !elem_of_cons, list_elem_of_filter, IH.
  destruct (decide (x = y)); tauto.
Qed.

Lemma NoDup_unique l : NoDup (unique l).
Proof.
  induction l as [|y l IH]; simpl; [constructor|].
  apply NoDup_cons. split.
  - rewrite list_elem_of_filter. by intros [? _].
  - by apply NoDup_filter.
Qed.

Lemma groupby_keys df :
  (groupby_h3_index df).*1 ≡ₚ unique (h3_index <$> df).
Proof.
  unfold groupby_h3_index.
  transitivity (merge_sort str_le (unique (h3_index <$> df)));
    [|apply merge_sort_Permutation].
  generalize (merge_sort str_le (unique (h3_index <$> df))). intros l.
  induction l as [|k l IH]; [done|]. rewrite !fmap_cons. simpl. by f_equiv.
Qed.

Lemma NoDup_groupby_keys df : NoDup (groupby_h3_index df).*1.
Proof. rewrite groupby_keys. apply NoDup_unique. Qed.

Lemma elem_of_groupby df k group :
  (k, group) ∈ groupby_h3_index df ↔
  k ∈ h3_index <$> df ∧ group = filter (λ row, h3_index row = k) df.
Proof.
  unfold groupby_h3_index. rewrite list_elem_of_fmap. split.
  - intros (k' & [= <- ->] & Hin). split; [|done].
    by rewrite merge_sort_Permutation, elem_of_unique in Hin.
  - intros [Hin ->]. exists k. split; [done|].
    by rewrite merge_sort_Permutation, elem_of_unique.
Qed.

Lemma groupby_nil df : groupby_h3_index df = [] ↔ df = [].
Proof.
  split; [|by intros ->].
  intros H. destruct df as [|row df]; [done|].
  assert ((h3_index row, filter (λ r, h3_index r = h3_index row) (row :: df))
            ∈ groupby_h3_index (row :: df)) as Hin.
  { apply elem_of_groupby. split; [|done]. rewrite fmap_cons. apply list_elem_of_here. }
  rewrite H in Hin. by apply elem_of_nil in Hin.
Qed.

(** ** The loop over the groups *)

Lemma truthy_rgb_to_hex c : truthy (Some (rgb_to_hex c)) = true.
Proof. done. Qed.

Lemma blend_groups_returns h3_groups aggs :
  blend_groups h3_groups = inr aggs ↔
  Forall (λ kg, returns (blend_colors_with_prominence kg.2)) h3_groups ∧
  aggs = omap cell_of h3_groups.
Proof.
  revert aggs. induction h3_groups as [|[k group] rest IH]; intros aggs.
  - simpl. split; [intros [= <-]; by split | by intros [_ ->]].
  - rewrite Forall_cons. simpl. unfold cell_of at 1. simpl.
    destruct (blend_colors_with_prominence group) as [e|blended]; simpl.
    { split; [done | by intros [[[? ?] _] _]]. }
    destruct (blend_groups rest) as [e|aggs'] eqn:Er; simpl.
    { split; [done|]. intros [[_ Hrest] _].
      by pose proof (proj2 (IH (omap cell_of rest)) (conj Hrest eq_refl)). }
    destruct (proj1 (IH aggs') eq_refl) as [Hrest ->].
    assert (returns (inr blended : result (option string))) as Hret by by eexists.
    destruct blended as [[|ch c]|]; simpl.
    all: split; [intros [= <-]; by repeat split | by intros [_ ->]].
Qed.

Lemma cell_of_key kg a : cell_of kg = Some a → cell_h3_index a = kg.1.
Proof.
  unfold cell_of. destruct (blend_colors_with_prominence kg.2) as [|[c|]]; try done.
  destruct (truthy (Some c)); [|done]. by intros [= <-].
Qed.

Lemma cell_of_species kg a :
  cell_of kg = Some a →
  cell_tree_species a = unique (TreeName <$> kg.2) ∧
  blend_colors_with_prominence kg.2 = inr (Some (cell_colour_hex a)).
Proof.
  unfold cell_of. destruct (blend_colors_with_prominence kg.2) as [|[c|]]; try done.
  destruct (truthy (Some c)); [|done]. by intros [= <-].
Qed.

Lemma cell_keys_sublist h3_groups :
  cell_h3_index <$> omap cell_of h3_groups `sublist_of` h3_groups.*1.
Proof.
  induction h3_groups as [|kg rest IH]; [done|]. simpl.
  destruct (cell_of kg) as [a|] eqn:E.
  - rewrite fmap_cons, (cell_of_key _ _ E). by apply sublist_skip.
  - by apply sublist_cons.
Qed.

Lemma cell_of_blendable kg :
  Forall (λ row, blendable row) kg.2 →
  (is_Some (cell_of kg) ↔ ∃ row, row ∈ kg.2 ∧ contributes row).
Proof.
  intros Hb. unfold cell_of. rewrite (blend_blendable _ Hb).
  unfold contributing.
  destruct (filter _ kg.2) as [|row rows] eqn:E.
  - split; [by intros [? ?]|]. intros (row & Hin & Hc).
    assert (row ∈ filter (λ row, contributes row) kg.2) as H
      by by apply list_elem_of_filter.
    rewrite E in H. by apply elem_of_nil in H.
  - split; [|by eexists]. intros _. exists row.
    assert (row ∈ filter (λ row, contributes row) kg.2) as H
      by (rewrite E; apply list_elem_of_here).
    apply list_elem_of_filter in H. tauto.
Qed.

(** ** Monthly aggregation: the claims *)

Lemma elem_of_rows_of_cell df month k row :
  row ∈ rows_of_cell df month k ↔
  row ∈ df ∧ month_columns row !! month = Some true ∧ h3_index row = k.
Proof.
  unfold rows_of_cell, flowering_in_month. rewrite !list_elem_of_filter. tauto.
Qed.

Lemma elem_of_month_groups df month k group :
  (k, group) ∈ groupby_h3_index (flowering_in_month df month) →
  group = rows_of_cell df month k.
Proof. by intros [_ ->]%elem_of_groupby. Qed.

(** C2, as the spec states it, fails on the code: the Neem record has no
    prominence, so it is left out of the blend, and its species is in the
    list of the cell all the same. *)
Lemma C2_species_of_excluded_record :
  ∃ a, blended_colors two_species "Jan" = inr [a] ∧
       "Neem" ∈ cell_tree_species a ∧
       ∀ row, row ∈ two_species → TreeName row = "Neem" → contributes row = false.
Proof.
  eexists. split; [by vm_compute|]. split.
  - simpl. set_solver.
  - intros row Hin Hname. unfold two_species in Hin.
    rewrite !elem_of_cons, elem_of_nil in Hin.
    destruct Hin as [->|[->|[]]]; [discriminate | reflexivity].
Qed.

(** C2 (amended): the species list of an emitted cell is the list of the
    distinct species names of all the records of that cell that flower in
    the month, in order of first appearance: each such species once, however
    many records it has, whether or not its records took part in the
    blend. *)
Theorem C2_species_list df month aggs a :
  blended_colors df month = inr aggs → a ∈ aggs →
  cell_tree_species a =
    unique (TreeName <$> rows_of_cell df month (cell_h3_index a)) ∧
  NoDup (cell_tree_species a) ∧
  (∀ name, name ∈ cell_tree_species a ↔
     ∃ row, row ∈ df ∧ month_columns row !! month = Some true ∧
            h3_index row = cell_h3_index a ∧ TreeName row = name) ∧
  (∀ row, row ∈ df → month_columns row !! month = Some true →
     h3_index row = cell_h3_index a → contributes row →
     TreeName row ∈ cell_tree_species a).
Proof.
  unfold blended_colors. intros [_ ->]%blend_groups_returns Hin.
  apply list_elem_of_omap in Hin as ([k group] & Hkg & Hcell).
  pose proof (cell_of_key _ _ Hcell) as Hk.
  pose proof (cell_of_species _ _ Hcell) as [Hsp _]. simpl in Hk, Hsp. subst k.
  apply elem_of_month_groups in Hkg. subst group. clear Hcell.
  assert (∀ name, name ∈ cell_tree_species a ↔
     ∃ row, row ∈ df ∧ month_columns row !! month = Some true ∧
            h3_index row = cell_h3_index a ∧ TreeName row = name) as Hiff.
  { intros name. rewrite Hsp, elem_of_unique, list_elem_of_fmap. split.
    - intros (row & -> & Hrow%elem_of_rows_of_cell). exists row. tauto.
    - intros (row & H1 & H2 & H3 & <-). exists row. split; [done|].
      by apply elem_of_rows_of_cell. }
  split; [done|]. split; [rewrite Hsp; apply NoDup_unique|]. split; [done|].
  intros row H1 H2 H3 _. apply Hiff. by exists row.
Qed.

Lemma C2_species_list_witness :
  ∃ a, blended_colors two_species "Jan" = inr [a] ∧
       cell_tree_species a = ["Gulmohar"; "Neem"] ∧
       NoDup (cell_tree_species a).
Proof.
  assert (∃ a, blended_colors two_species "Jan" = inr [a]) as [a Ha]
    by (eexists; by vm_compute).
  destruct (C2_species_list two_species "Jan" [a] a Ha) as (Hsp & Hnd & _).
  { apply list_elem_of_here. }
  exists a. split; [exact Ha|]. split; [|exact Hnd].
  rewrite Hsp. vm_compute in Ha. injection Ha as <-. by vm_compute.
Defined.

Section Aggregation.

Variable cell_to_boundary : string → list point.
Variable args : Args.

Lemma month_iteration_blended df month aggs :
  blended_colors df month = inr aggs →
  ∃ files, month_iteration cell_to_boundary args df month = inr files ∧
           Forall (λ f, (file_cells f).*1 = aggs) files ∧
           (aggs = [] → files = []).
Proof.
  unfold blended_colors, month_iteration. intros Hb.
  destruct (flowering_in_month df month) as [|row rows] eqn:Ef.
  { injection Hb as <-. exists []. by repeat split. }
  cbn [length Nat.eqb].
  destruct (groupby_h3_index (row :: rows)) as [|kg kgs] eqn:Eg.
  { injection Hb as <-. exists []. by repeat split. }
  cbn [length Nat.eqb]. rewrite Hb. simpl.
  destruct aggs as [|a aggs]; [exists []; by repeat split|].
  eexists. split; [done|]. split; [|done].
  assert (((λ a, (a, h3_cell_to_polygon cell_to_boundary (cell_h3_index a)))
             <$> a :: aggs).*1 = a :: aggs) as Hfst.
  { rewrite <- list_fmap_compose. generalize (a :: aggs). intros l.
    induction l as [|x l IH]; [done|]. rewrite fmap_cons. simpl. by f_equal. }
  unfold save_outputs. destruct (output_format args); repeat constructor; exact Hfst.
Qed.

(** C7: when the records that flower in a month raise nothing in the blend,
    the month yields exactly one aggregate per cell that holds a flowering
    record with a colour and a prominence; the other groups are dropped
    without an error; every file of the month holds these aggregates; a
    month without an aggregate, in particular one without a flowering
    record, saves no file, and the run goes on with the months after it. *)
Theorem C7_one_aggregate_per_cell df month :
  Forall (λ row, blendable row) (flowering_in_month df month) →
  ∃ aggs files,
    blended_colors df month = inr aggs ∧
    NoDup (cell_h3_index <$> aggs) ∧
    (∀ k, k ∈ cell_h3_index <$> aggs ↔
       ∃ row, row ∈ df ∧ month_columns row !! month = Some true ∧
              h3_index row = k ∧ contributes row) ∧
    month_iteration cell_to_boundary args df month = inr files ∧
    Forall (λ f, (file_cells f).*1 = aggs) files ∧
    (flowering_in_month df month = [] → aggs = []) ∧
    (aggs = [] → files = []) ∧
    (∀ months,
       run_months cell_to_boundary args df (month :: months) =
         let* files' := run_months cell_to_boundary args df months in
         ret (app files files')).
Proof.
  intros Hb.
  set (h3_groups := groupby_h3_index (flowering_in_month df month)).
  assert (∀ k group, (k, group) ∈ h3_groups →
            group = rows_of_cell df month k ∧ Forall (λ row, blendable row) group)
    as Hgroups.
  { intros k group Hin. apply elem_of_month_groups in Hin as ->. split; [done|].
    unfold rows_of_cell. rewrite Forall_forall in Hb. apply Forall_forall.
    intros row [_ Hrow]%list_elem_of_filter. by apply Hb. }
  assert (blended_colors df month = inr (omap cell_of h3_groups)) as Hblend.
  { apply blend_groups_returns. split; [|done].
    apply Forall_forall. intros [k group] Hin.
    destruct (Hgroups k group Hin) as [_ Hg]. simpl.
    rewrite (blend_blendable group Hg). by eexists. }
  destruct (month_iteration_blended df month _ Hblend) as (files & Hfiles & Hcells & Hnone).
  exists (omap cell_of h3_groups), files.
  split; [done|]. split; [|split; [|split; [done|split; [done|split; [|split; [done|]]]]]].
  - eapply sublist_NoDup; [apply NoDup_groupby_keys | apply cell_keys_sublist].
  - intros k. rewrite list_elem_of_fmap. split.
    + intros (a & -> & ([k' group] & Hin & Hcell)%list_elem_of_omap).
      pose proof (cell_of_key _ _ Hcell) as Hk. simpl in Hk. subst k'.
      destruct (Hgroups _ _ Hin) as [-> Hg].
      destruct (proj1 (cell_of_blendable
                         (cell_h3_index a, rows_of_cell df month (cell_h3_index a)) Hg))
        as (row & Hrow & Hc);
        [by eexists|].
      simpl in Hrow. apply elem_of_rows_of_cell in Hrow. exists row. tauto.
    + intros (row & Hdf & Hm & Hk & Hc).
      assert ((k, rows_of_cell df month k) ∈ h3_groups) as Hin.
      { apply elem_of_groupby. split; [|done].
        apply list_elem_of_fmap. exists row. split; [done|].
        unfold flowering_in_month. by apply list_elem_of_filter. }
      destruct (Hgroups _ _ Hin) as [_ Hg].
      destruct (proj2 (cell_of_blendable (k, rows_of_cell df month k) Hg)) as [a Ha].
      { exists row. split; [|done]. simpl. by apply elem_of_rows_of_cell. }
      exists a. split; [by rewrite (cell_of_key _ _ Ha)|].
      apply list_elem_of_omap. by eexists.
  - unfold h3_groups. by intros ->.
  - intros months. simpl. by rewrite Hfiles.
Qed.

End Aggregation.

Lemma C7_one_aggregate_per_cell_witness :
  let args := {| resolution := 11; output_format := both |} in
  (∃ aggs files,
     blended_colors small_census "Jan" = inr aggs ∧
     cell_h3_index <$> aggs = ["8b60145a0000fff"] ∧
     month_iteration (λ _, triangle) args small_census "Jan" = inr files ∧
     length files = 2%nat) ∧
  month_iteration (λ _, triangle) args small_census "Feb" = inr [] ∧
  run_months (λ _, triangle) args small_census ["Feb"; "Jan"] =
    run_months (λ _, triangle) args small_census ["Jan"].
Proof.
  intros args. split; [|split].
  - destruct (C7_one_aggregate_per_cell (λ _, triangle) args small_census "Jan")
      as (aggs & files & Hb & _ & _ & Hf & _).
    { repeat constructor. }
    exists aggs, files. split; [exact Hb|].
    vm_compute in Hb. injection Hb as <-.
    vm_compute in Hf. injection Hf as <-. by split.
  - destruct (C7_one_aggregate_per_cell (λ _, triangle) args small_census "Feb")
      as (aggs & files & _ & _ & _ & Hf & _ & Hnone & Hskip & _).
    { repeat constructor. }
    rewrite Hf. f_equal. apply Hskip, Hnone. reflexivity.
  - destruct (C7_one_aggregate_per_cell (λ _, triangle) args small_census "Feb")
      as (aggs & files & _ & _ & _ & _ & _ & Hnone & Hskip & Hrun).
    { repeat constructor. }
    rewrite Hrun, (Hskip (Hnone eq_refl)).
    by destruct (run_months _ _ _ ["Jan"]).
Defined.

(** ** The blended colour is a colour *)

Lemma blend_channel_bounds group channel lo hi :
  Forall (λ row, blendable row) group →
  contributing group ≠ [] →
  (∀ row, row ∈ contributing group → 0 ≤ channel (colour_of row)) →
  (∀ row, row ∈ contributing group → lo ≤ channel (colour_of row) ≤ hi) →
  lo ≤ int_div (weighted_total channel group) (total_weight group) ≤ hi.
Proof.
  intros Hb Hne Hpos Hch.
  pose proof (total_weight_pos group Hb Hne) as Hw.
  destruct (int_div_bounds (weighted_total channel group) (total_weight group)
              (Z.max lo 0) hi Hw) as [H _]; [lia| |lia].
  apply weighted_total_bounds; [done|].
  intros row Hin. specialize (Hpos row Hin). specialize (Hch row Hin). lia.
Qed.

Lemma in_gamut_channel channel c :
  channel ∈ [red; green; blue] → in_gamut c → 0 ≤ channel c ≤ 255.
Proof.
  rewrite !elem_of_cons, elem_of_nil. unfold in_gamut.
  intros [->|[->|[->|[]]]]; tauto.
Qed.

Lemma red_channel : red ∈ [red; green; blue].
Proof. apply list_elem_of_here. Qed.

Lemma green_channel : green ∈ [red; green; blue].
Proof. apply list_elem_of_further, list_elem_of_here. Qed.

Lemma blue_channel : blue ∈ [red; green; blue].
Proof. do 2 apply list_elem_of_further. apply list_elem_of_here. Qed.

Lemma blend_in_gamut group s :
  Forall (λ row, blendable row) group →
  (∀ row, row ∈ group → contributes row → in_gamut (colour_of row)) →
  blend_colors_with_prominence group = inr (Some s) →
  hex_colour s ∧
  ∃ c, hex_to_rgb s = inr c ∧ in_gamut c ∧
    ∀ channel lo hi,
      channel ∈ [red; green; blue] →
      (∀ row, row ∈ group → contributes row → lo ≤ channel (colour_of row) ≤ hi) →
      lo ≤ channel c ≤ hi.
Proof.
  intros Hb Hg. rewrite (blend_blendable group Hb).
  destruct (contributing group) as [|r0 rs] eqn:Ec; [done|].
  intros [= <-].
  assert (contributing group ≠ []) as Hne by by rewrite Ec.
  assert (∀ row, row ∈ contributing group → row ∈ group ∧ contributes row) as Hin.
  { intros row [? ?]%list_elem_of_filter. done. }
  assert (∀ channel lo hi,
      channel ∈ [red; green; blue] →
      (∀ row, row ∈ group → contributes row → lo ≤ channel (colour_of row) ≤ hi) →
      lo ≤ int_div (weighted_total channel group) (total_weight group) ≤ hi) as Hbounds.
  { intros channel lo hi Hch Hrows. apply blend_channel_bounds; [done..| |].
    - intros row [Hrow Hc]%Hin.
      by destruct (in_gamut_channel channel _ Hch (Hg row Hrow Hc)).
    - intros row [Hrow Hc]%Hin. by apply Hrows. }
  set (c := (int_div (weighted_total red group) (total_weight group),
             int_div (weighted_total green group) (total_weight group),
             int_div (weighted_total blue group) (total_weight group))).
  assert (in_gamut c) as Hc.
  { unfold in_gamut, c, red at 1, green at 1, blue at 1. simpl.
    pose proof (Hbounds red 0 255 red_channel) as Hr.
    pose proof (Hbounds green 0 255 green_channel) as Hgr.
    pose proof (Hbounds blue 0 255 blue_channel) as Hbl.
    split; [|split]; [apply Hr | apply Hgr | apply Hbl].
    all: intros row Hrow Hcon; apply in_gamut_channel; [|by apply Hg].
    - apply red_channel.
    - apply green_channel.
    - apply blue_channel. }
  destruct (rgb_to_hex_gamut c Hc) as [Hhex Hdec].
  split; [done|]. exists c. split; [done|]. split; [done|].
  intros channel lo hi Hch Hrows. pose proof (Hbounds channel lo hi Hch Hrows) as H.
  rewrite !elem_of_cons, elem_of_nil in Hch.
  destruct Hch as [->|[->|[->|[]]]]; exact H.
Qed.

(** C10: a blend that is present, on rows whose colours decode to byte
    channels, is a hash sign followed by six lowercase hexadecimal digits;
    it decodes to channels in [0,255], each between any lower and upper
    bound of the corresponding channel of the contributing rows; so every
    aggregate of a month carries such a colour. *)
Theorem C10_blend_is_colour :
  (∀ group s,
     Forall (λ row, blendable row) group →
     (∀ row, row ∈ group → contributes row → in_gamut (colour_of row)) →
     blend_colors_with_prominence group = inr (Some s) →
     hex_colour s ∧
     ∃ c, hex_to_rgb s = inr c ∧ in_gamut c ∧
       ∀ channel lo hi,
         channel ∈ [red; green; blue] →
         (∀ row, row ∈ group → contributes row → lo ≤ channel (colour_of row) ≤ hi) →
         lo ≤ channel c ≤ hi) ∧
  (∀ df month aggs a,
     Forall (λ row, blendable row) (flowering_in_month df month) →
     (∀ row, row ∈ flowering_in_month df month → contributes row →
        in_gamut (colour_of row)) →
     blended_colors df month = inr aggs → a ∈ aggs →
     hex_colour (cell_colour_hex a)).
Proof.
  split; [exact blend_in_gamut|].
  intros df month aggs a Hb Hg [_ ->]%blend_groups_returns Hin.
  apply list_elem_of_omap in Hin as ([k group] & Hkg & Hcell).
  apply elem_of_month_groups in Hkg as ->.
  destruct (cell_of_species _ _ Hcell) as [_ Hblend]. simpl in Hblend.
  eapply (blend_in_gamut (rows_of_cell df month k)); [| |exact Hblend].
  - rewrite Forall_forall in Hb. apply Forall_forall.
    intros row [_ Hrow]%list_elem_of_filter. by apply Hb.
  - intros row [_ Hrow]%list_elem_of_filter Hc. by apply Hg.
Qed.

Lemma C10_blend_is_colour_witness :
  hex_colour "#bf003f" ∧
  ∃ c, hex_to_rgb "#bf003f" = inr c ∧ in_gamut c ∧ 0 ≤ blue c ≤ 255 ∧ red c ≤ 255.
Proof.
  destruct (proj1 C10_blend_is_colour [red_high; blue_low] "#bf003f")
    as (Hhex & c & Hdec & Hg & Hb).
  - repeat constructor.
  - intros row Hin _. rewrite !elem_of_cons, elem_of_nil in Hin.
    destruct Hin as [->|[->|[]]]; vm_compute; repeat split; discriminate.
  - by vm_compute.
  - split; [exact Hhex|]. exists c. split; [exact Hdec|]. split; [exact Hg|].
    split.
    + apply Hb; [apply blue_channel|]. intros row Hin _.
      rewrite !elem_of_cons, elem_of_nil in Hin.
      destruct Hin as [->|[->|[]]]; vm_compute; split; discriminate.
    + apply (Hb red 0 255); [apply red_channel|]. intros row Hin _.
      rewrite !elem_of_cons, elem_of_nil in Hin.
      destruct Hin as [->|[->|[]]]; vm_compute; split; discriminate.
Defined.

(** ** Cell polygons *)

Lemma point_eqb_lng_lat p q : point_eqb (lng_lat p) (lng_lat q) = point_eqb p q.
Proof. unfold point_eqb, lng_lat. simpl. apply andb_comm. Qed.

Lemma point_eqb_eq p q : point_eqb p q = true → point_eq p q.
Proof.
  unfold point_eqb, point_eq.
  intros [H1 H2]%andb_prop. by split; apply Qeq_bool_iff.
Qed.

Lemma point_eq_refl p : point_eq p p.
Proof. split; reflexivity. Qed.

Lemma close_ring_fmap shell :
  close_ring (lng_lat <$> shell) = lng_lat <$> close_ring shell.
Proof.
  unfold close_ring. destruct shell as [|p shell]; [done|].
  rewrite fmap_cons, <- (fmap_cons lng_lat p shell), fmap_last.
  destruct (last (p :: shell)) as [q|]; [|done]. cbn [fmap option_fmap option_map].
  rewrite point_eqb_lng_lat. destruct (point_eqb p q); [done|].
  by rewrite fmap_app.
Qed.

Lemma close_ring_prefix shell i p :
  shell !! i = Some p → close_ring shell !! i = Some p.
Proof.
  intros H. unfold close_ring. destruct shell as [|p0 shell]; [done|].
  destruct (last (p0 :: shell)) as [q|]; [|done].
  destruct (point_eqb p0 q); [done|]. by apply lookup_app_l_Some.
Qed.

Lemma close_ring_length shell :
  (length shell ≤ length (close_ring shell) ≤ S (length shell))%nat.
Proof.
  unfold close_ring. destruct shell as [|p0 shell]; [simpl; lia|].
  destruct (last (p0 :: shell)) as [q|]; [|lia].
  destruct (point_eqb p0 q); [lia|]. rewrite length_app. simpl. lia.
Qed.

Lemma close_ring_closed shell : shell ≠ [] → closed (close_ring shell).
Proof.
  intros Hne. unfold close_ring, closed. destruct shell as [|p shell]; [done|].
  destruct (last (p :: shell)) as [q|] eqn:El.
  - destruct (point_eqb p q) eqn:Eq.
    + exists p, q. split; [done|]. split; [done|]. by apply point_eqb_eq.
    + exists p, p. split; [done|]. split; [|apply point_eq_refl].
      change (last ((p :: shell) ++ [p]) = Some p). apply last_snoc.
  - by apply last_None in El.
Qed.

Lemma edges_fmap ring :
  edges (lng_lat <$> ring) = (λ e, (lng_lat e.1, lng_lat e.2)) <$> edges ring.
Proof.
  induction ring as [|a ring IH]; [done|]. destruct ring as [|b ring]; [done|].
  change (edges (lng_lat <$> a :: b :: ring))
    with ((lng_lat a, lng_lat b) :: edges (lng_lat <$> b :: ring)).
  by rewrite IH.
Qed.

Lemma on_segment_lng_lat p a b :
  on_segment (lng_lat p) (lng_lat a) (lng_lat b) ↔ on_segment p a b.
Proof.
  unfold on_segment, lng_lat. simpl.
  split; intros (t & H0 & H1 & Hx & Hy); exists t; tauto.
Qed.

Lemma point_eq_lng_lat p q : point_eq (lng_lat p) (lng_lat q) ↔ point_eq p q.
Proof. unfold point_eq, lng_lat. simpl. tauto. Qed.

(** Exchanging the two coordinates keeps a ring simple. *)
Lemma simple_lng_lat ring : simple ring → simple (lng_lat <$> ring).
Proof.
  unfold simple. intros Hs i j e e' p Hij.
  rewrite edges_fmap, length_fmap, !list_lookup_fmap.
  destruct (edges ring !! i) as [e0|] eqn:Ei; [|done].
  destruct (edges ring !! j) as [e0'|] eqn:Ej; [|done].
  intros [= <-] [= <-]. cbn [fst snd].
  replace p with (lng_lat (lng_lat p)) by by destruct p.
  rewrite !on_segment_lng_lat, !point_eq_lng_lat.
  by apply Hs.
Qed.

Section CellPolygon.

Variable cell_to_boundary : string → list point.

(** C8: the polygon of a cell has, vertex by vertex and in the order of the
    library's boundary, the vertices of that boundary with (lat, lng)
    exchanged into (lng, lat); its ring is closed, by at most one repeated
    vertex; and it is simple whenever the library's boundary is. *)
Theorem C8_cell_polygon h3_index :
  let boundary := cell_to_boundary h3_index in
  let polygon := h3_cell_to_polygon cell_to_boundary h3_index in
  exterior polygon = close_ring (lng_lat <$> boundary) ∧
  (∀ i lat lng, boundary !! i = Some (lat, lng) →
     exterior polygon !! i = Some (lng, lat)) ∧
  (length boundary ≤ length (exterior polygon) ≤ S (length boundary))%nat ∧
  (boundary ≠ [] → closed (exterior polygon)) ∧
  (simple (close_ring boundary) → simple (exterior polygon)).
Proof.
  intros boundary polygon.
  assert (exterior polygon = close_ring (lng_lat <$> boundary)) as E.
  { unfold polygon, h3_cell_to_polygon, shapely_Polygon. simpl. f_equal.
    apply list_fmap_ext. by intros _ [lat lng] _. }
  split; [done|]. rewrite E. split; [|split; [|split]].
  - intros i lat lng Hi. apply close_ring_prefix.
    by rewrite list_lookup_fmap, Hi.
  - pose proof (close_ring_length (lng_lat <$> boundary)) as H.
    by rewrite length_fmap in H.
  - intros Hne. apply close_ring_closed. by destruct boundary.
  - intros Hs. rewrite close_ring_fmap. by apply simple_lng_lat.
Qed.

End CellPolygon.

Lemma triangle_simple : simple (close_ring triangle).
Proof.
  intros i j e e' p Hij Hi Hj (t & Ht0 & Ht1 & Hx & Hy) (u & Hu0 & Hu1 & Hx' & Hy').
  destruct i as [|[|[|i]]], j as [|[|[|j]]]; try lia; try discriminate.
  all: injection Hi as <-; injection Hj as <-; simpl in *.
  - left. split; [done|]. split; simpl; lra.
  - right. split; [done|]. split; [done|]. split; simpl; lra.
  - left. split; [done|]. split; simpl; lra.
Qed.

Lemma C8_cell_polygon_witness :
  let polygon := h3_cell_to_polygon (λ _, triangle) "8b60145a0000fff" in
  exterior polygon = [(0, 0); (1, 0); (0, 1); (0, 0)]%Q ∧
  closed (exterior polygon) ∧ simple (exterior polygon).
Proof.
  destruct (C8_cell_polygon (λ _, triangle) "8b60145a0000fff")
    as (E & _ & _ & Hc & Hs).
  split; [exact E|]. split.
  - by apply Hc.
  - apply Hs, triangle_simple.
Defined.

(** * Further properties of the code *)

(** ** Decoding and encoding colours *)

Lemma elem_of_all_ascii c : c ∈ all_ascii.
Proof.
  unfold all_ascii. apply list_elem_of_fmap. exists (nat_of_ascii c).
  split; [by rewrite ascii_nat_embedding|].
  apply elem_of_seq. pose proof (nat_ascii_bounded c). lia.
Qed.

Lemma forall_ascii (P : ascii → bool) :
  forallb P all_ascii = true → ∀ c, P c = true.
Proof.
  intros H c. rewrite forallb_forall in H. apply H.
  apply list_elem_of_In, elem_of_all_ascii.
Qed.

Lemma forall_ascii2 (P : ascii → ascii → bool) :
  forallb (λ c, forallb (P c) all_ascii) all_ascii = true → ∀ c d, P c d = true.
Proof.
  intros H c d. apply (forall_ascii (P c)). by apply (forall_ascii (λ c, forallb (P c) all_ascii)).
Qed.

Lemma int_error s base e : Py.int s base = inl e → e = ValueError.
Proof.
  unfold Py.int, raise, ret. destruct (Py.strip_sign _) as [sign s1].
  set (s2 := Py.strip_base_prefix base s1).
  assert (
    match Py.scan_digits base s2 false false 0 with
    | Some (v, rest) =>
        if Py.all_space rest then
          if Py.power_of_two base then inr (sign * v)
          else if Py.max_str_digits <? Py.count_digits base s2 then inl ValueError
          else inr (sign * v)
        else inl ValueError
    | None => inl ValueError
    end = inl e → e = ValueError) as H.
  { destruct (Py.scan_digits _ _ _ _ _) as [[v rest]|]; [|by intros [= <-]].
    destruct (Py.all_space rest); [|by intros [= <-]].
    destruct (Py.power_of_two base); [done|].
    destruct (_ <? _); [by intros [= <-] | done]. }
  clearbody s2. destruct s2 as [|c s2]; [by apply H|].
  destruct (decide (c = "_"%char)) as [->|Hc]; [by intros [= <-]|].
  intros He. apply H.
  destruct c as [[] [] [] [] [] [] [] []]; try exact He; congruence.
Qed.

(** What [int(_, 16)] reads from at most two characters. *)
Lemma int16_short s v :
  (String.length s ≤ 2)%nat → Py.int s 16 = inr v → -15 ≤ v ≤ 255.
Proof.
  intros Hlen.
  destruct s as [|c [|d [|? ?]]]; [done| | |simpl in Hlen; lia].
  - pose proof (forall_ascii
      (λ c, match Py.int (String c EmptyString) 16 with
            | inr v => (-15 <=? v) && (v <=? 255)
            | inl _ => true
            end) ltac:(by vm_compute) c) as H.
    simpl in H. destruct (Py.int _ 16) as [|v']; [done|]. intros [= <-]. lia.
  - pose proof (forall_ascii2
      (λ c d, match Py.int (String c (String d EmptyString)) 16 with
              | inr v => (-15 <=? v) && (v <=? 255)
              | inl _ => true
              end) ltac:(by vm_compute) c d) as H.
    simpl in H. destruct (Py.int _ 16) as [|v']; [done|]. intros [= <-]. lia.
Qed.

Lemma int16_pair c d :
  is_hex_digit c → is_hex_digit d →
  Py.int (String c (String d EmptyString)) 16 = inr (byte_of c d) ∧
  0 ≤ byte_of c d ≤ 255.
Proof.
  intros Hc Hd.
  pose proof (forall_ascii2
    (λ c d, if is_hex_digit c && is_hex_digit d
            then match Py.int (String c (String d EmptyString)) 16 with
                 | inr v => (v =? byte_of c d) && (0 <=? v) && (v <=? 255)
                 | inl _ => false
                 end
            else true) ltac:(by vm_compute) c d) as H.
  simpl in H. rewrite (Is_true_true_1 _ Hc), (Is_true_true_1 _ Hd) in H. simpl in H.
  destruct (Py.int _ 16) as [|v]; [done|].
  apply andb_prop in H as [[->%Z.eqb_eq H1]%andb_prop H2]. split; [done | lia].
Qed.

Lemma substring_zero s : String.substring 0 0 s = EmptyString.
Proof. by destruct s. Qed.

Lemma hex_to_rgb_six s d1 d2 d3 d4 d5 d6 rest :
  Py.lstrip "#" s = six d1 d2 d3 d4 d5 d6 rest →
  hex_to_rgb s =
    let* r := Py.int (String d1 (String d2 EmptyString)) 16 in
    let* g := Py.int (String d3 (String d4 EmptyString)) 16 in
    let* b := Py.int (String d5 (String d6 EmptyString)) 16 in
    ret (r, g, b).
Proof.
  unfold hex_to_rgb. cbv zeta. intros ->. unfold Py.slice, six. simpl.
  by rewrite !substring_zero.
Qed.

Lemma hex_digit_not_hash d : is_hex_digit d → Ascii.eqb d "#" = false.
Proof. intros H. destruct (Ascii.eqb_spec d "#") as [->|]; done. Qed.

Lemma lstrip_hashes n body :
  match body with String d _ => Ascii.eqb d "#" = false | EmptyString => True end →
  Py.lstrip "#" (hashes n ++ body) = body.
Proof.
  intros H. induction n as [|n IH]; simpl; [|done].
  destruct body as [|d body]; [done|]. simpl. by rewrite H.
Qed.

(** X1: with any number of leading hash signs, six hexadecimal digits of
    either case decode to their three bytes, and whatever follows the sixth
    digit is ignored. *)
Theorem hex_to_rgb_digits n d1 d2 d3 d4 d5 d6 rest :
  is_hex_digit d1 → is_hex_digit d2 → is_hex_digit d3 →
  is_hex_digit d4 → is_hex_digit d5 → is_hex_digit d6 →
  hex_to_rgb (hashes n ++ six d1 d2 d3 d4 d5 d6 rest) =
    inr (byte_of d1 d2, byte_of d3 d4, byte_of d5 d6) ∧
  in_gamut (byte_of d1 d2, byte_of d3 d4, byte_of d5 d6).
Proof.
  intros H1 H2 H3 H4 H5 H6.
  destruct (int16_pair d1 d2 H1 H2) as [E12 B12].
  destruct (int16_pair d3 d4 H3 H4) as [E34 B34].
  destruct (int16_pair d5 d6 H5 H6) as [E56 B56].
  split; [|unfold in_gamut, red, green, blue; simpl; lia].
  rewrite (hex_to_rgb_six _ d1 d2 d3 d4 d5 d6 rest).
  - by rewrite E12, E34, E56.
  - apply lstrip_hashes. by apply hex_digit_not_hash.
Qed.

Lemma hex_to_rgb_digits_witness :
  hex_to_rgb "#FFa501" = inr (255, 165, 1) ∧
  hex_to_rgb "ffa501ff" = inr (255, 165, 1).
Proof.
  split.
  - exact (proj1 (hex_to_rgb_digits 1 "F" "F" "a" "5" "0" "1" ""
                    I I I I I I)).
  - exact (proj1 (hex_to_rgb_digits 0 "f" "f" "a" "5" "0" "1" "ff"
                    I I I I I I)).
Defined.

Lemma hex_to_rgb_error s e : hex_to_rgb s = inl e → e = ValueError.
Proof.
  unfold hex_to_rgb.
  intros [H|(r & _ & [H|(g & _ & [H|(b & _ & H)]%bind_inl)]%bind_inl)]%bind_inl;
    try by apply int_error in H. done.
Qed.

(** X2: decoding raises nothing but [ValueError], and it raises it on every
    string with fewer than five characters after its leading hash signs:
    a three-digit shorthand or an empty string is not a colour. *)
Theorem hex_to_rgb_errors :
  (∀ s e, hex_to_rgb s = inl e → e = ValueError) ∧
  (∀ s, (String.length (Py.lstrip "#" s) < 5)%nat → hex_to_rgb s = inl ValueError).
Proof.
  split; [exact hex_to_rgb_error|].
  intros s Hlen.
  destruct (hex_to_rgb s) as [e|c] eqn:E; [by rewrite (hex_to_rgb_error s e E)|].
  exfalso. unfold hex_to_rgb in E.
  apply bind_inr in E as (r & _ & (g & _ & (b & Hb & _)%bind_inr)%bind_inr).
  destruct (Py.lstrip "#" s) as [|c1 [|c2 [|c3 [|c4 [|c5 body]]]]];
    try discriminate Hb. simpl in Hlen. lia.
Qed.

Lemma hex_to_rgb_errors_witness : hex_to_rgb "#fff" = inl ValueError.
Proof. apply (proj2 hex_to_rgb_errors). simpl. lia. Defined.

Lemma substring_length i n s : (String.length (String.substring i n s) ≤ n)%nat.
Proof.
  revert i n. induction s as [|c s IH]; intros i n.
  - destruct i, n; simpl; lia.
  - destruct i as [|i].
    + destruct n as [|n]; simpl; [lia|]. specialize (IH 0%nat n). lia.
    + simpl. apply IH.
Qed.

(** X3: a decoded channel is read from two characters: it is never above
    255, and never below -15 (a sign and one digit). *)
Theorem hex_to_rgb_channel_bounds s c channel :
  hex_to_rgb s = inr c → channel ∈ [red; green; blue] → -15 ≤ channel c ≤ 255.
Proof.
  unfold hex_to_rgb.
  intros (r & Hr & (g & Hg & (b & Hb & [= <-])%bind_inr)%bind_inr)%bind_inr Hch.
  apply int16_short in Hr, Hg, Hb; try apply substring_length.
  rewrite !elem_of_cons, elem_of_nil in Hch.
  destruct Hch as [->|[->|[->|[]]]]; done.
Qed.

Lemma hex_to_rgb_channel_bounds_witness :
  hex_to_rgb "#-f00ff" = inr (-15, 0, 255) ∧ -15 ≤ red (-15, 0, 255) ≤ 255.
Proof.
  split; [reflexivity|].
  apply (hex_to_rgb_channel_bounds "#-f00ff"); [reflexivity | apply red_channel].
Defined.

Lemma string_length_app (a b : string) :
  String.length (a ++ b) = (String.length a + String.length b)%nat.
Proof. induction a as [|c a IH]; simpl; [done|]. by rewrite IH. Qed.

Lemma list_ascii_app (a b : string) :
  list_ascii_of_string (a ++ b) =
    (list_ascii_of_string a ++ list_ascii_of_string b)%list.
Proof. induction a as [|c a IH]; simpl; [done|]. by rewrite IH. Qed.

Lemma digits_length fuel base n acc :
  (String.length acc ≤ String.length (PyFormat.digits fuel base n acc))%nat.
Proof.
  revert n acc. induction fuel as [|fuel IH]; intros n acc; simpl; [lia|].
  destruct (n / base =? 0); simpl; [lia|].
  etransitivity; [|apply IH]. simpl. lia.
Qed.

Lemma unsigned_length base n : (1 ≤ String.length (PyFormat.unsigned base n))%nat.
Proof.
  unfold PyFormat.unsigned. simpl.
  destruct (n / base =? 0); simpl; [lia|].
  etransitivity; [|apply digits_length]. simpl. lia.
Qed.

Lemma unsigned16_length_big n :
  256 ≤ n → (3 ≤ String.length (PyFormat.unsigned 16 n))%nat.
Proof.
  intros Hn. unfold PyFormat.unsigned.
  assert (8 ≤ Z.log2 n) as Hlog by (apply Z.log2_le_pow2; lia).
  destruct (Z.to_nat (Z.log2 n)) as [|[|f]] eqn:Ef; [lia..|].
  cbn [PyFormat.digits].
  destruct (Z.eqb_spec (n / 16) 0) as [E|_].
  { apply Z.div_small_iff in E; lia. }
  destruct (Z.eqb_spec (n / 16 / 16) 0) as [E|_].
  { rewrite Z.div_div in E by lia. apply Z.div_small_iff in E; lia. }
  destruct (n / 16 / 16 / 16 =? 0); simpl; [lia|].
  etransitivity; [|apply digits_length]. simpl. lia.
Qed.

Lemma x02_length n : (2 ≤ String.length (PyFormat.x02 n))%nat.
Proof.
  unfold PyFormat.x02. destruct (n <? 0).
  - pose proof (unsigned_length 16 (- n)). simpl. lia.
  - pose proof (unsigned_length 16 n) as H.
    destruct (PyFormat.unsigned 16 n) as [|d [|d' s]]; simpl in *; lia.
Qed.

Lemma x02_length_big n : 256 ≤ n → (3 ≤ String.length (PyFormat.x02 n))%nat.
Proof.
  intros Hn. unfold PyFormat.x02. destruct (Z.ltb_spec n 0) as [?|_]; [lia|].
  pose proof (unsigned16_length_big n Hn) as H.
  destruct (PyFormat.unsigned 16 n) as [|d [|d' s]]; simpl in *; lia.
Qed.

Lemma x02_negative n :
  n < 0 → forallb is_lower_hex (list_ascii_of_string (PyFormat.x02 n)) = false.
Proof.
  intros Hn. unfold PyFormat.x02. destruct (Z.ltb_spec n 0) as [_|?]; [|lia]. done.
Qed.

(** X4: encoding yields a hash sign and six lowercase hexadecimal digits
    exactly when the three channels are bytes (a channel out of range is
    not clamped), and such a colour decodes to the channels it was made
    from. *)
Theorem rgb_to_hex_well_formed c :
  (hex_colour (rgb_to_hex c) ↔ in_gamut c) ∧
  (in_gamut c → hex_to_rgb (rgb_to_hex c) = inr c).
Proof.
  split; [split|]; try (intros H; by apply rgb_to_hex_gamut).
  destruct c as [[r g] b]. unfold rgb_to_hex, hex_colour, in_gamut, red, green, blue.
  cbn [fst snd]. intros [Hlen Hhex]%andb_prop_elim.
  apply Is_true_true, Nat.eqb_eq in Hlen. apply Is_true_true in Hhex.
  rewrite !string_length_app in Hlen.
  rewrite !list_ascii_app, !forallb_app in Hhex.
  apply andb_prop in Hhex as [Hr [Hg Hb]%andb_prop].
  pose proof (x02_length r). pose proof (x02_length g). pose proof (x02_length b).
  assert (∀ n, String.length (PyFormat.x02 n) = 2%nat →
            forallb is_lower_hex (list_ascii_of_string (PyFormat.x02 n)) = true →
            0 ≤ n ≤ 255) as Hbyte.
  { intros n Hl Hh. split.
    - destruct (Z.lt_ge_cases n 0) as [Hn|]; [|lia].
      by rewrite (x02_negative n Hn) in Hh.
    - destruct (Z.le_gt_cases 256 n) as [Hn|]; [|lia].
      pose proof (x02_length_big n Hn). lia. }
  repeat split; apply Hbyte; (lia || done).
Qed.

Lemma rgb_to_hex_well_formed_witness :
  hex_to_rgb (rgb_to_hex (218, 0, 36)) = inr (218, 0, 36) ∧
  ¬ hex_colour (rgb_to_hex (256, 0, 0)).
Proof.
  split.
  - apply (proj2 (rgb_to_hex_well_formed (218, 0, 36))).
    unfold in_gamut, red, green, blue. simpl. lia.
  - intros H. apply (proj1 (proj1 (rgb_to_hex_well_formed (256, 0, 0)))) in H.
    unfold in_gamut, red in H. simpl in H. lia.
Defined.

Lemma x02_byte_of c d :
  is_hex_digit c → is_hex_digit d →
  PyFormat.x02 (byte_of c d) = String (lower_char c) (String (lower_char d) EmptyString).
Proof.
  intros Hc Hd.
  pose proof (forall_ascii2
    (λ c d, if is_hex_digit c && is_hex_digit d
            then String.eqb (PyFormat.x02 (byte_of c d))
                   (String (lower_char c) (String (lower_char d) EmptyString))
            else true) ltac:(by vm_compute) c d) as H.
  simpl in H. rewrite (Is_true_true_1 _ Hc), (Is_true_true_1 _ Hd) in H.
  by apply String.eqb_eq in H.
Qed.

(** X5: decoding a hash sign and six hexadecimal digits and encoding the
    result gives the same string in lowercase. *)
Theorem decode_encode_lowercase d1 d2 d3 d4 d5 d6 c :
  is_hex_digit d1 → is_hex_digit d2 → is_hex_digit d3 →
  is_hex_digit d4 → is_hex_digit d5 → is_hex_digit d6 →
  hex_to_rgb (String "#" (six d1 d2 d3 d4 d5 d6 EmptyString)) = inr c →
  rgb_to_hex c = lower (String "#" (six d1 d2 d3 d4 d5 d6 EmptyString)).
Proof.
  intros H1 H2 H3 H4 H5 H6.
  rewrite (hex_to_rgb_six _ d1 d2 d3 d4 d5 d6 EmptyString).
  2:{ simpl. by rewrite (hex_digit_not_hash d1 H1). }
  rewrite (proj1 (int16_pair d1 d2 H1 H2)), (proj1 (int16_pair d3 d4 H3 H4)),
    (proj1 (int16_pair d5 d6 H5 H6)).
  intros [= <-].
  unfold rgb_to_hex, red, green, blue. cbn [fst snd].
  by rewrite !x02_byte_of.
Qed.

Lemma decode_encode_lowercase_witness :
  rgb_to_hex (255, 165, 1) = "#ffa501".
Proof.
  apply (decode_encode_lowercase "F" "F" "A" "5" "0" "1" (255, 165, 1)); done.
Defined.

(** ** More on the blend *)

Lemma collect_contributing group : collect group = collect (contributing group).
Proof.
  induction group as [|row group IH]; [done|].
  rewrite contributing_cons. simpl.
  destruct (contributes row) eqn:Ec; [|done]. simpl. rewrite Ec.
  by rewrite IH.
Qed.

(** X6: the records without a colour or without a prominence have no part
    in the blend: with or without them the result, or the exception, is the
    same. *)
Theorem blend_ignores_incomplete_rows group :
  blend_colors_with_prominence group =
    blend_colors_with_prominence (filter (λ row, contributes row) group).
Proof.
  unfold blend_colors_with_prominence.
  by rewrite (collect_contributing group).
Qed.

Lemma blendable_false row :
  blendable row = false ↔
  contributes row = true ∧ (row_colour row = None ∨ row_weight row = None).
Proof.
  unfold blendable. destruct (contributes row); [|by split; [|intros [? _]]].
  rewrite andb_false_iff, !bool_decide_eq_false, <- !eq_None_not_Some. tauto.
Qed.

Lemma collect_fails group :
  fails (collect group) ↔ Exists (λ row, blendable row = false) group.
Proof.
  induction group as [|row group IH].
  - rewrite Exists_nil. split; [by intros [e He] | done].
  - rewrite Exists_cons, blendable_false. simpl.
    unfold row_colour, row_weight, getitem.
    destruct (contributes row) eqn:Ec.
    2:{ rewrite IH. split; [by right | by intros [[? _]|?]]. }
    destruct (colour_hex row) as [h|]; simpl.
    2:{ split; [intros _; left; by auto | intros _; by eexists]. }
    destruct (hex_to_rgb h) as [e|c]; simpl.
    { split; [intros _; left; by auto | intros _; by eexists]. }
    destruct (prominence row) as [p|]; simpl.
    2:{ split; [intros _; left; by auto | intros _; by eexists]. }
    destruct (prominence_weights !! p) as [w|]; simpl.
    2:{ split; [intros _; left; by auto | intros _; by eexists]. }
    rewrite <- IH. destruct (collect group) as [e|[cs ws]]; simpl.
    + split; [intros _; right; by eexists | intros _; by eexists].
    + split; [by intros [e He] | intros [[_ [?|?]]|[e He]]; done].
Qed.

Lemma blend_fails_blendable group :
  fails (blend_colors_with_prominence group) ↔
  Exists (λ row, blendable row = false) group.
Proof.
  rewrite <- collect_fails. unfold blend_colors_with_prominence.
  destruct (collect group) as [e|[cs ws]]; simpl.
  - split; intros _; by eexists.
  - split; intros [e He]; [|done].
    destruct cs; [done|]. by destruct (sum ws =? 0).
Qed.

(** X7: the blend raises exactly when the group holds a record with a
    colour and a prominence whose colour does not decode or whose
    prominence is not in the weight table. *)
Theorem blend_fails_iff group :
  fails (blend_colors_with_prominence group) ↔
  ∃ row, row ∈ group ∧ contributes row ∧
         (row_colour row = None ∨ row_weight row = None).
Proof.
  rewrite blend_fails_blendable, Exists_exists.
  split; intros (row & Hin & H); exists row; (split; [done|]).
  - apply blendable_false in H as [Hc H]. by rewrite Hc.
  - apply blendable_false. destruct H as [Hc H]. split; [|done].
    by apply Is_true_true.
Qed.

Lemma collect_error_kinds group e :
  (∀ row, row ∈ group → contributes row → is_Some (colour_hex row)) →
  collect group = inl e → e = ValueError ∨ e = KeyError.
Proof.
  induction group as [|row group IH]; intros Hhex; [done|]. simpl.
  assert (∀ r, r ∈ group → contributes r → is_Some (colour_hex r)) as Hhex'.
  { intros r Hr. apply Hhex. by apply list_elem_of_further. }
  destruct (contributes row) eqn:Ec; [|by apply IH].
  destruct (Hhex row) as [h ->]; [apply list_elem_of_here | by rewrite Ec|].
  intros [H|(c & _ & [H|(w & _ & [H|([cs ws] & _ & H)]%bind_inl)]%bind_inl)]%bind_inl.
  - left. by apply hex_to_rgb_error in H.
  - right. destruct (prominence row) as [p|]; [|by injection H].
    unfold getitem in H. destruct (prominence_weights !! p); [done | by injection H].
  - by apply IH.
  - done.
Qed.

(** X8: on rows whose [colour_hex] is a copy of [colour], as the pipeline
    builds them, the blend raises nothing but [ValueError] (a colour that
    does not decode) and [KeyError] (a prominence outside the table). *)
Theorem blend_error_kinds group e :
  (∀ row, row ∈ group → colour_hex row = colour row) →
  blend_colors_with_prominence group = inl e →
  e = ValueError ∨ e = KeyError.
Proof.
  intros Hcopy. unfold blend_colors_with_prominence.
  intros [H|([cs ws] & _ & H)]%bind_inl.
  - apply (collect_error_kinds group e); [|done].
    intros row Hin Hc. rewrite (Hcopy row Hin).
    unfold contributes in Hc. by destruct (colour row).
  - destruct cs; [done|]. by destruct (sum ws =? 0).
Qed.

Lemma blend_error_kinds_witness :
  blend_colors_with_prominence [red_high; bad_colour] = inl ValueError ∧
  (ValueError = ValueError ∨ ValueError = KeyError).
Proof.
  split; [reflexivity|].
  apply (blend_error_kinds [red_high; bad_colour]); [|reflexivity].
  intros row Hin. rewrite !elem_of_cons, elem_of_nil in Hin.
  by destruct Hin as [->|[->|[]]].
Defined.

Lemma blend_fails_iff_witness :
  fails (blend_colors_with_prominence [red_high; odd_prominence]).
Proof.
  apply (proj2 (blend_fails_iff [red_high; odd_prominence])).
  exists odd_prominence. split; [|split; [done | by right]].
  apply list_elem_of_further, list_elem_of_here.
Defined.

(** X9: when every record that takes part has the same colour, with byte
    channels, the blend is that colour, whatever the prominences. *)
Theorem blend_uniform group c :
  Forall (λ row, blendable row) group →
  in_gamut c →
  (∃ row, row ∈ group ∧ contributes row) →
  (∀ row, row ∈ group → contributes row → colour_of row = c) →
  blend_colors_with_prominence group = inr (Some (rgb_to_hex c)).
Proof.
  intros Hb Hg (row0 & Hin0 & Hc0) Hsame.
  assert (contributing group ≠ []) as Hne.
  { intros E. assert (row0 ∈ contributing group) as H
      by by apply list_elem_of_filter.
    rewrite E in H. by apply elem_of_nil in H. }
  assert (∀ channel, channel ∈ [red; green; blue] →
            int_div (weighted_total channel group) (total_weight group) = channel c)
    as Hch.
  { intros channel Hin.
    pose proof (in_gamut_channel channel c Hin Hg) as Hbyte.
    assert (∀ row, row ∈ contributing group → colour_of row = c) as Hsame'.
    { intros row [? ?]%list_elem_of_filter. by apply Hsame. }
    pose proof (blend_channel_bounds group channel (channel c) (channel c) Hb Hne) as H.
    assert (channel c ≤ int_div (weighted_total channel group) (total_weight group)
              ≤ channel c) as Hq; [|lia].
    apply H; intros row Hrow; rewrite (Hsame' row Hrow); lia. }
  rewrite (blend_blendable group Hb).
  destruct (contributing group) as [|r rs]; [done|].
  rewrite (Hch red red_channel), (Hch green green_channel), (Hch blue blue_channel).
  by destruct c as [[? ?] ?].
Qed.

Lemma blend_uniform_witness :
  blend_colors_with_prominence [red_high; no_colour_low; red_high] =
    inr (Some "#ff0000").
Proof.
  apply (blend_uniform [red_high; no_colour_low; red_high] (255, 0, 0)).
  - by repeat constructor.
  - unfold in_gamut, red, green, blue. simpl. lia.
  - exists red_high. split; [apply list_elem_of_here | done].
  - intros row Hin Hc. rewrite !elem_of_cons, elem_of_nil in Hin.
    destruct Hin as [->|[->|[->|[]]]]; done.
Defined.

Lemma weighted_total_same_weight channel group w :
  (∀ row, row ∈ contributing group → weight_of row = w) →
  weighted_total channel group = w * channel_total channel group ∧
  total_weight group = w * Z.of_nat (length (contributing group)).
Proof.
  unfold weighted_total, channel_total, total_weight.
  induction (contributing group) as [|row rows IH]; intros Hw; [simpl; lia|].
  destruct IH as [IH1 IH2].
  { intros r Hr. apply Hw. by apply list_elem_of_further. }
  cbn [foldr length]. rewrite IH1, IH2, (Hw row) by apply list_elem_of_here. lia.
Qed.

Lemma channel_total_bounds channel group lo hi :
  (∀ row, row ∈ contributing group → lo ≤ channel (colour_of row) ≤ hi) →
  lo * Z.of_nat (length (contributing group)) ≤ channel_total channel group
    ≤ hi * Z.of_nat (length (contributing group)).
Proof.
  unfold channel_total.
  induction (contributing group) as [|row rows IH]; intros H; [simpl; lia|].
  destruct IH as [IH1 IH2].
  { intros r Hr. apply H. by apply list_elem_of_further. }
  pose proof (H row ltac:(apply list_elem_of_here)).
  cbn [foldr length]. lia.
Qed.

(** X10: when every record that takes part has the same prominence, the
    weights cancel: each channel of the blend is the plain mean of that
    channel over these records, cut down to an integer. *)
Theorem blend_same_prominence group p :
  Forall (λ row, blendable row) group →
  (∃ row, row ∈ group ∧ contributes row) →
  (∀ row, row ∈ group → contributes row →
     prominence row = Some p ∧ in_gamut (colour_of row)) →
  ∃ r g b,
    blend_colors_with_prominence group = inr (Some (rgb_to_hex (r, g, b))) ∧
    truncated_mean (channel_total red group)
      (Z.of_nat (length (contributing group))) r ∧
    truncated_mean (channel_total green group)
      (Z.of_nat (length (contributing group))) g ∧
    truncated_mean (channel_total blue group)
      (Z.of_nat (length (contributing group))) b.
Proof.
  intros Hb (row0 & Hin0 & Hc0) Hsame.
  assert (row0 ∈ contributing group) as Hrow0 by by apply list_elem_of_filter.
  assert (∀ row, row ∈ contributing group → row ∈ group ∧ contributes row) as Hin.
  { by intros row [? ?]%list_elem_of_filter. }
  rewrite Forall_forall in Hb.
  destruct (blendable_contributes row0 (Hb row0 Hin0) Hc0)
    as (_ & _ & p0 & w & _ & _ & Hp0 & Hw & _ & Hw0 & Hrange).
  assert (p0 = p) as -> by (destruct (Hsame row0 Hin0 Hc0) as [Hp _]; congruence).
  assert (∀ row, row ∈ contributing group → weight_of row = w) as Hws.
  { intros row [Hrow Hc]%Hin. destruct (Hsame row Hrow Hc) as [Hp _].
    unfold weight_of, row_weight. by rewrite Hp, Hw. }
  set (n := Z.of_nat (length (contributing group))).
  assert (0 < n) as Hn.
  { unfold n. destruct (contributing group); [by apply elem_of_nil in Hrow0 | simpl; lia]. }
  assert (∀ channel, channel ∈ [red; green; blue] →
    truncated_mean (channel_total channel group) n
      (int_div (weighted_total channel group) (total_weight group))) as Hmean.
  { intros channel Hch.
    destruct (weighted_total_same_weight channel group w Hws) as [-> ->]. fold n.
    unfold int_div. rewrite Z.quot_mul_cancel_l by lia.
    apply (int_div_bounds _ _ 0 255 Hn); [lia|].
    apply channel_total_bounds. intros row [Hrow Hc]%Hin.
    destruct (Hsame row Hrow Hc) as [_ Hg]. by apply in_gamut_channel. }
  eexists _, _, _. split; [|split; [|split]].
  - rewrite blend_blendable by by apply Forall_forall.
    destruct (contributing group); [by apply elem_of_nil in Hrow0 | done].
  - apply Hmean, red_channel.
  - apply Hmean, green_channel.
  - apply Hmean, blue_channel.
Qed.

Lemma blend_same_prominence_witness :
  ∃ r g b,
    blend_colors_with_prominence [red_high; red_high] = inr (Some (rgb_to_hex (r, g, b))) ∧
    truncated_mean (255 + 255) 2 r.
Proof.
  destruct (blend_same_prominence [red_high; red_high] "high")
    as (r & g & b & Hblend & Hr & _).
  - by repeat constructor.
  - exists red_high. split; [apply list_elem_of_here | done].
  - intros row Hin _. rewrite !elem_of_cons, elem_of_nil in Hin.
    destruct Hin as [->|[->|[]]]; (split; [done|]);
      unfold in_gamut; vm_compute; repeat split; discriminate.
  - exists r, g, b. split; [exact Hblend | exact Hr].
Defined.

(** ** More on month ranges *)

Lemma split_app_sep sep x y :
  Py.split sep (x ++ String sep y) = (Py.split sep x ++ Py.split sep y)%list.
Proof.
  induction x as [|c x IH]; simpl.
  - by rewrite Ascii.eqb_refl.
  - destruct (Ascii.eqb c sep); [by rewrite IH|].
    rewrite IH. destruct (Py.split sep x) as [|p ps] eqn:E; [|done].
    by destruct (split_nonempty sep x).
Qed.

Lemma mark_segments_app fm rs rs' :
  mark_segments fm (rs ++ rs') =
    let* fm' := mark_segments fm rs in mark_segments fm' rs'.
Proof.
  revert fm. induction rs as [|r rs IH]; intros fm; [done|]. simpl.
  destruct (parse_segment r) as [e|[a b]]; [done|]. simpl.
  destruct (mark_months fm _) as [e|fm1]; [done|]. simpl. apply IH.
Qed.

Lemma mark_months_keeps (P : gmap string bool → Prop) fm idx fm' :
  (∀ d m, P d → m ∈ MONTHS → P (<[m := true]> d)) →
  P fm → mark_months fm idx = inr fm' → P fm'.
Proof.
  intros Hstep. revert fm. induction idx as [|i idx IH]; intros fm HP; simpl.
  - by intros [= <-].
  - destruct (PyList.index MONTHS i) as [e|m] eqn:Ei; [done|]. simpl.
    apply IH, Hstep; [done|]. by eapply index_in_MONTHS.
Qed.

Lemma mark_segments_keeps (P : gmap string bool → Prop) fm rs fm' :
  (∀ d m, P d → m ∈ MONTHS → P (<[m := true]> d)) →
  P fm → mark_segments fm rs = inr fm' → P fm'.
Proof.
  intros Hstep. revert fm. induction rs as [|r rs IH]; intros fm HP; simpl.
  - by intros [= <-].
  - destruct (parse_segment r) as [e|[a b]]; [done|]. simpl.
    destruct (mark_months fm _) as [e|fm1] eqn:Em; [done|]. simpl.
    apply IH. by eapply (mark_months_keeps P fm).
Qed.

Lemma MONTHS_label m : m ∈ MONTHS → ∃ k, in_year k ∧ month_label k = Some m.
Proof.
  intros (i & Hi)%list_elem_of_lookup.
  pose proof (lookup_lt_Some _ _ _ Hi) as Hlt. change (length MONTHS) with 12%nat in Hlt.
  exists (Z.of_nat i + 1). split; [unfold in_year; lia|].
  unfold month_label. destruct (Z.leb_spec 1 (Z.of_nat i + 1)); [|lia].
  by replace (Z.to_nat (Z.of_nat i + 1 - 1)) with i by lia.
Qed.

(** X11: whatever the string, a calendar that the parser returns has
    exactly the twelve month labels as its keys. *)
Theorem calendar_keys range_text cal :
  convert_text_range_to_months range_text = inr cal →
  dom cal = list_to_set MONTHS ∧ size cal = 12%nat.
Proof.
  intros H.
  assert (∀ m, is_Some (cal !! m) ↔ m ∈ MONTHS) as Hkeys.
  { revert H. apply (mark_segments_keeps (λ d, ∀ m, is_Some (d !! m) ↔ m ∈ MONTHS)).
    - intros d m' Hd Hm' m. rewrite lookup_insert_is_Some, Hd.
      destruct (decide (m' = m)) as [->|]; tauto.
    - intros m. split.
      + intros Hs. destruct (decide (m ∈ MONTHS)) as [|Hn]; [done|].
        rewrite (no_months_other m Hn) in Hs. by destruct Hs.
      + intros (k & Hk & Hl)%MONTHS_label. rewrite (no_months_label k m Hk Hl). by eexists. }
  assert (dom cal = (list_to_set MONTHS : gset string)) as Hdom.
  { apply set_eq. intros m. by rewrite elem_of_dom, elem_of_list_to_set. }
  split; [done|]. rewrite <- size_dom, Hdom. by vm_compute.
Qed.

Lemma calendar_keys_witness :
  ∃ cal, convert_text_range_to_months "0-3;11-12" = inr cal ∧ size cal = 12%nat.
Proof.
  assert (∃ cal, convert_text_range_to_months "0-3;11-12" = inr cal) as [cal Hc]
    by (eexists; by vm_compute).
  exists cal. split; [exact Hc|]. exact (proj2 (calendar_keys _ cal Hc)).
Defined.

(** X12: when a string with one more segment at its end is parsed, the
    string without that segment is parsed as well, and every month that is
    true without the segment is true with it. *)
Theorem calendar_grows range_text r cal' :
  convert_text_range_to_months (range_text ++ String ";" r) = inr cal' →
  ∃ cal, convert_text_range_to_months range_text = inr cal ∧
         ∀ m, cal !! m = Some true → cal' !! m = Some true.
Proof.
  unfold convert_text_range_to_months.
  rewrite split_app_sep, mark_segments_app.
  intros (cal & Hcal & Hmore)%bind_inr. exists cal. split; [done|].
  intros m Hm. revert Hmore.
  apply (mark_segments_keeps (λ d, d !! m = Some true)); [|done].
  intros d m' Hd _. destruct (decide (m' = m)) as [->|Hne].
  - apply lookup_insert_eq.
  - by rewrite lookup_insert_ne.
Qed.

Lemma calendar_grows_witness :
  ∃ cal cal',
    convert_text_range_to_months "3-5;4-8" = inr cal' ∧
    convert_text_range_to_months "3-5" = inr cal ∧
    ∀ m, cal !! m = Some true → cal' !! m = Some true.
Proof.
  assert (∃ cal', convert_text_range_to_months ("3-5" ++ String ";" "4-8") = inr cal')
    as [cal' Hc'] by (eexists; by vm_compute).
  destruct (calendar_grows "3-5" "4-8" cal' Hc') as (cal & Hc & Hgrow).
  exists cal, cal'. split; [exact Hc'|]. split; [exact Hc | exact Hgrow].
Defined.

Lemma empty_segment_malformed : malformed "".
Proof. intros (a & b & x & y & E & _). by destruct x. Qed.

(** X13: a string with an empty segment is never parsed; in particular the
    empty string, and any string that ends with a semicolon. *)
Theorem empty_segment_fails :
  (∀ range_text, "" ∈ Py.split ";" range_text →
     fails (convert_text_range_to_months range_text)) ∧
  (∀ range_text, fails (convert_text_range_to_months (range_text ++ ";"))).
Proof.
  assert (∀ range_text, "" ∈ Py.split ";" range_text →
            fails (convert_text_range_to_months range_text)) as H.
  { intros range_text Hin. apply mark_segments_fails, Exists_exists.
    exists "". split; [done|]. left. apply empty_segment_malformed. }
  split; [exact H|].
  intros range_text. apply H.
  change (range_text ++ ";")%string with (range_text ++ String ";" "")%string.
  rewrite split_app_sep. apply elem_of_app. right. apply list_elem_of_here.
Qed.

Lemma empty_segment_fails_witness :
  fails (convert_text_range_to_months "3-5;;7-8").
Proof.
  apply (proj1 empty_segment_fails).
  apply list_elem_of_further, list_elem_of_here.
Defined.

Lemma parse_segment_error r e : parse_segment r = inl e → e = ValueError.
Proof.
  unfold parse_segment. destruct (Py.split "-" r) as [|x [|y [|z zs]]];
    try by intros [= <-].
  intros [H|(a & _ & [H|(b & _ & H)]%bind_inl)]%bind_inl;
    try by apply int_error in H. done.
Qed.

Lemma mark_months_error fm idx e : mark_months fm idx = inl e → e = IndexError.
Proof.
  revert fm. induction idx as [|i idx IH]; intros fm; simpl; [done|].
  intros [H|(m & _ & H)]%bind_inl; [|by eapply IH].
  unfold PyList.index in H. destruct (_ || _); [by injection H|].
  destruct (MONTHS !! _); [done | by injection H].
Qed.

Lemma mark_segments_error fm rs e :
  mark_segments fm rs = inl e →
  (e = ValueError ∧ Exists malformed rs) ∨ (e = IndexError ∧ Exists overrun rs).
Proof.
  revert fm. induction rs as [|r rs IH]; intros fm; simpl; [done|].
  destruct (parse_segment r) as [e'|[a b]] eqn:Ep; simpl.
  - intros [= <-]. left. split; [by apply parse_segment_error in Ep|].
    apply Exists_cons_hd, parse_segment_malformed. by eexists.
  - destruct (mark_months fm _) as [e'|fm1] eqn:Em; simpl.
    + intros [= <-]. right. split; [by apply mark_months_error in Em|].
      apply Exists_cons_hd. exists a, b.
      split; [by apply parse_segment_spec|].
      apply (range_fails fm a b); [by apply parse_segment_nonneg in Ep as [? _]|].
      by eexists.
    + intros [[-> H]|[-> H]]%IH; [left | right]; split; try done;
        by apply Exists_cons_tl.
Qed.

(** X14: the parser raises nothing but [ValueError], and then some segment
    does not read as two integers around a dash, and [IndexError], and then
    some segment with start <= end ends above 12; a string whose segments
    all read as pairs of integers never raises [ValueError]. *)
Theorem convert_error_kinds range_text e :
  convert_text_range_to_months range_text = inl e →
  ((e = ValueError ∧ Exists malformed (Py.split ";" range_text)) ∨
   (e = IndexError ∧ Exists overrun (Py.split ";" range_text))) ∧
  (∀ segs, segments_of range_text segs → e = IndexError).
Proof.
  intros H. apply mark_segments_error in H. split; [exact H|].
  intros segs Hs. destruct H as [[_ Hbad]|[-> _]]; [|done].
  exfalso. apply Exists_exists in Hbad as (r & Hin & Hmal).
  unfold segments_of in Hs.
  apply list_elem_of_lookup in Hin as [i Hi].
  destruct (Forall2_lookup_l _ _ _ _ _ Hs Hi) as ([a b] & _ & Hseg).
  apply Hmal. by exists a, b.
Qed.

Lemma convert_error_kinds_witness :
  Exists overrun (Py.split ";" "3-5;11-14").
Proof.
  destruct (convert_error_kinds "3-5;11-14" IndexError) as [[[? _]|[_ H]] _].
  - reflexivity.
  - discriminate.
  - exact H.
Defined.

Lemma covered_Permutation segs segs' k :
  segs ≡ₚ segs' → covered segs k = covered segs' k.
Proof.
  intros Hp. apply eq_true_iff_eq. rewrite <- !Is_true_true, !covered_spec.
  by setoid_rewrite Hp.
Qed.

(** X15: two strings whose segments read as the same pairs in another
    order, all with start >= 1 and end <= 12, give the same calendar. *)
Theorem calendar_order_independent range_text range_text' segs segs' :
  segments_of range_text segs → segments_of range_text' segs' →
  segs ≡ₚ segs' →
  Forall (λ ab, 1 ≤ ab.1 ∧ ab.2 ≤ 12) segs →
  ∃ cal, convert_text_range_to_months range_text = inr cal ∧
         convert_text_range_to_months range_text' = inr cal.
Proof.
  intros Hs Hs' Hp Hin.
  assert (Forall (λ ab, 1 ≤ ab.1 ∧ ab.2 ≤ 12) segs') as Hin' by by rewrite <- Hp.
  destruct (convert_calendar _ _ Hs Hin) as (cal & Hc & Hcal & Hout).
  destruct (convert_calendar _ _ Hs' Hin') as (cal' & Hc' & Hcal' & Hout').
  exists cal. split; [done|]. rewrite Hc'. f_equal. apply map_eq. intros m.
  destruct (decide (m ∈ MONTHS)) as [(k & Hk & Hl)%MONTHS_label|Hn].
  - by rewrite (Hcal k m Hk Hl), (Hcal' k m Hk Hl), (covered_Permutation _ _ _ Hp).
  - by rewrite (Hout m Hn), (Hout' m Hn).
Qed.

Lemma calendar_order_independent_witness :
  ∃ cal, convert_text_range_to_months "1-2;11-12" = inr cal ∧
         convert_text_range_to_months "11-12;1-2" = inr cal.
Proof.
  apply (calendar_order_independent "1-2;11-12" "11-12;1-2"
           [(1, 2); (11, 12)] [(11, 12); (1, 2)]).
  - read_segments.
  - read_segments.
  - apply Permutation_swap.
  - repeat constructor; simpl; lia.
Defined.

(** X16: a segment that starts at 0 is not refused: its walk begins at
    index -1, which is the last label, so such a segment with end b <= 12
    marks December and the months 1 to b. *)
Theorem start_zero_marks_december range_text b :
  segments_of range_text [(0, b)] → 0 ≤ b ≤ 12 →
  ∃ cal, convert_text_range_to_months range_text = inr cal ∧
    cal !! "Dec" = Some true ∧
    ∀ k m, 1 ≤ k ≤ 11 → month_label k = Some m →
           cal !! m = Some (k <=? b).
Proof.
  unfold segments_of, convert_text_range_to_months. intros Hs Hb.
  destruct (Py.split ";" range_text) as [|r [|r' rs]];
    [by apply Forall2_nil_cons_inv in Hs| |apply Forall2_cons_1 in Hs as [_ Hs];
     by apply Forall2_cons_nil_inv in Hs].
  apply Forall2_cons_1 in Hs as [Hr%parse_segment_spec _]. simpl in Hr.
  simpl. rewrite Hr. simpl. unfold PyList.range.
  rewrite seqZ_cons by lia. simpl.
  replace (Z.succ (0 - 1)) with (1 - 1) by lia.
  replace (Z.pred (b - 1 + 1 - (0 - 1))) with (b - 1 + 1 - (1 - 1)) by lia.
  change (PyList.index MONTHS (0 - 1)) with (inr "Dec" : result string). simpl.
  destruct (mark_months_range (<["Dec" := true]> no_months) 1 b ltac:(lia) ltac:(lia))
    as (cal & Hcal & Hin & _).
  unfold PyList.range in Hcal. rewrite Hcal. simpl.
  exists cal. split; [done|]. split.
  - rewrite (Hin 12 "Dec"); [|unfold in_year; lia|done].
    destruct ((1 <=? 12) && (12 <=? b)); [done | apply lookup_insert_eq].
  - intros k m Hk Hm. rewrite (Hin k m); [|unfold in_year; lia|done].
    destruct (Z.leb_spec 1 k); [|lia]. simpl.
    destruct (k <=? b); [done|].
    rewrite lookup_insert_ne.
    + apply (no_months_label k); [unfold in_year; lia | done].
    + intros <-. assert (k = 12); [|lia]. by apply (month_label_inj k 12 "Dec").
Qed.

Lemma start_zero_marks_december_witness :
  ∃ cal, convert_text_range_to_months "0-3" = inr cal ∧
    cal !! "Dec" = Some true ∧
    ∀ k m, 1 ≤ k ≤ 11 → month_label k = Some m → cal !! m = Some (k <=? 3).
Proof.
  apply (start_zero_marks_december "0-3" 3); [read_segments | lia].
Defined.

(** ** More on the monthly aggregation *)

Lemma blend_groups_fails h3_groups :
  fails (blend_groups h3_groups) ↔
  Exists (λ kg, fails (blend_colors_with_prominence kg.2)) h3_groups.
Proof.
  induction h3_groups as [|[k group] rest IH].
  - rewrite Exists_nil. split; [by intros [e He] | done].
  - rewrite Exists_cons. simpl.
    destruct (blend_colors_with_prominence group) as [e|blended]; simpl.
    { split; [intros _; left | intros _]; by eexists. }
    rewrite <- IH. destruct (blend_groups rest) as [e|aggs]; simpl.
    { split; [intros _; right | intros _]; by eexists. }
    split; [|by intros [[e He]|[e He]]].
    intros [e He]. destruct blended as [[|ch c]|]; discriminate.
Qed.

Lemma month_iteration_eq cell_to_boundary args df month :
  month_iteration cell_to_boundary args df month =
    let* aggs := blended_colors df month in
    ret (match aggs with
         | [] => []
         | _ :: _ =>
             save_outputs args month (cells_with_geometry cell_to_boundary aggs)
         end).
Proof.
  unfold month_iteration, blended_colors.
  destruct (flowering_in_month df month) as [|row rows]; [done|].
  cbn [length Nat.eqb].
  destruct (groupby_h3_index (row :: rows)) as [|kg kgs]; [done|].
  cbn [length Nat.eqb].
  destruct (blend_groups (kg :: kgs)) as [e|[|a aggs]]; done.
Qed.

(** X17: the iteration of a month raises exactly when some record that
    flowers in that month has a colour and a prominence of which the colour
    does not decode or the prominence is not in the weight table; records
    that do not flower in the month cannot make it raise. *)
Theorem month_fails_iff cell_to_boundary args df month :
  fails (month_iteration cell_to_boundary args df month) ↔
  ∃ row, row ∈ df ∧ month_columns row !! month = Some true ∧
         contributes row ∧ (row_colour row = None ∨ row_weight row = None).
Proof.
  assert (fails (month_iteration cell_to_boundary args df month) ↔
          fails (blended_colors df month)) as ->.
  { rewrite month_iteration_eq. destruct (blended_colors df month) as [e|aggs]; simpl.
    - split; intros _; by eexists.
    - split; by intros [e He]. }
  unfold blended_colors. rewrite blend_groups_fails, Exists_exists. split.
  - intros ([k group] & Hin & Hfail).
    apply elem_of_month_groups in Hin as ->.
    apply blend_fails_blendable, Exists_exists in Hfail as (row & Hrow & Hbad).
    apply blendable_false in Hbad as [Hc Hbad].
    apply elem_of_rows_of_cell in Hrow as (? & ? & _).
    exists row. by rewrite Hc.
  - intros (row & Hdf & Hm & Hc & Hbad).
    exists (h3_index row, rows_of_cell df month (h3_index row)). split.
    + apply elem_of_groupby. split; [|done].
      apply list_elem_of_fmap. exists row. split; [done|].
      by apply list_elem_of_filter.
    + apply blend_fails_blendable, Exists_exists. exists row.
      split; [by apply elem_of_rows_of_cell|].
      apply blendable_false. split; [by apply Is_true_true | done].
Qed.

Lemma month_fails_iff_witness :
  ¬ fails (month_iteration (λ _, triangle)
             {| resolution := 11; output_format := both |}
             (odd_prominence :: small_census) "Jan").
Proof.
  intros H.
  apply (month_fails_iff (λ _, triangle)
           {| resolution := 11; output_format := both |}
           (odd_prominence :: small_census) "Jan") in H
    as (row & Hin & Hm & Hc & Hbad).
  unfold small_census in Hin. rewrite !elem_of_cons, elem_of_nil in Hin.
  destruct Hin as [->|[->|[->|[->|[]]]]];
    try discriminate Hm; try done; destruct Hbad; discriminate.
Defined.

Lemma blend_present_truthy group c :
  blend_colors_with_prominence group = inr (Some c) → truthy (Some c) = true.
Proof.
  unfold blend_colors_with_prominence.
  intros ([cs ws] & _ & H)%bind_inr. destruct cs; [done|].
  destruct (sum ws =? 0); [done|]. by injection H as <-.
Qed.

(** X18: the cells of a month do not influence one another: a cell has an
    aggregate with a given colour exactly when that colour is the blend of
    the records of that very cell that flower in the month. *)
Theorem aggregate_colour df month aggs k c :
  blended_colors df month = inr aggs →
  (∃ a, a ∈ aggs ∧ cell_h3_index a = k ∧ cell_colour_hex a = c) ↔
  blend_colors_with_prominence (rows_of_cell df month k) = inr (Some c).
Proof.
  unfold blended_colors. intros [_ ->]%blend_groups_returns. split.
  - intros (a & ([k' group] & Hin & Hcell)%list_elem_of_omap & <- & <-).
    apply elem_of_month_groups in Hin as ->.
    destruct (cell_of_species _ _ Hcell) as [_ Hb].
    by rewrite (cell_of_key _ _ Hcell).
  - intros Hb.
    assert ((k, rows_of_cell df month k) ∈
              groupby_h3_index (flowering_in_month df month)) as Hin.
    { apply elem_of_groupby. split; [|done].
      destruct (rows_of_cell df month k) as [|row rows] eqn:E; [done|].
      assert (row ∈ rows_of_cell df month k) as Hrow
        by (rewrite E; apply list_elem_of_here).
      unfold rows_of_cell in Hrow. apply list_elem_of_filter in Hrow as [<- Hrow].
      apply list_elem_of_fmap. by exists row. }
    eexists. split; [|split].
    + apply list_elem_of_omap. eexists. split; [exact Hin|].
      unfold cell_of. cbn [fst snd]. rewrite Hb, (blend_present_truthy _ _ Hb). done.
    + done.
    + done.
Qed.

Lemma aggregate_colour_witness :
  ∃ aggs a, blended_colors small_census "Jan" = inr aggs ∧ a ∈ aggs ∧
            cell_h3_index a = "8b60145a0000fff" ∧ cell_colour_hex a = "#bf003f".
Proof.
  assert (∃ aggs, blended_colors small_census "Jan" = inr aggs) as [aggs Ha]
    by (eexists; by vm_compute).
  destruct (proj2 (aggregate_colour small_census "Jan" aggs
                     "8b60145a0000fff" "#bf003f" Ha)) as (a & Hin & Hk & Hc).
  - by vm_compute.
  - by exists aggs, a.
Defined.

(** *** The order of the cells *)

Lemma ascii_compare_spec a b :
  CompareSpec (N_of_ascii a = N_of_ascii b) (N_of_ascii a < N_of_ascii b)%N
    (N_of_ascii b < N_of_ascii a)%N (Ascii.compare a b).
Proof. apply N.compare_spec. Qed.

Lemma str_le_trans a b c : str_le a b → str_le b c → str_le a c.
Proof.
  unfold str_le, String.leb. revert b c.
  induction a as [|x a IH]; intros [|y b] [|z c]; simpl; try done.
  destruct (ascii_compare_spec x y) as [Exy|Hxy|Hxy],
           (ascii_compare_spec y z) as [Eyz|Hyz|Hyz],
           (ascii_compare_spec x z) as [Exz|Hxz|Hxz];
    try done; try lia; try apply IH.
  all: intros H1 H2; try done.
  all: destruct (String.compare a c) eqn:E; try done.
  all: specialize (IH b c); rewrite E in IH; by apply IH.
Qed.

Lemma str_le_total a b : str_le a b ∨ str_le b a.
Proof.
  unfold str_le. destruct (String.leb_total a b) as [H|H]; rewrite H; [by left | by right].
Qed.

Lemma StronglySorted_sublist {A : Type} (R : relation A) (l l' : list A) :
  l' `sublist_of` l → StronglySorted R l → StronglySorted R l'.
Proof.
  induction 1 as [|x l1 l2 Hsub IH|x l1 l2 Hsub IH]; intros Hs.
  - done.
  - apply StronglySorted_inv in Hs as [Hs Hall]. constructor; [by apply IH|].
    rewrite Forall_forall in Hall. apply Forall_forall.
    intros y Hy. apply Hall. by eapply elem_of_sublist.
  - apply StronglySorted_inv in Hs as [Hs _]. by apply IH.
Qed.

Lemma groupby_keys_sorted df : StronglySorted str_le (groupby_h3_index df).*1.
Proof.
  unfold groupby_h3_index.
  assert (∀ l : list string,
            ((λ k, (k, filter (λ row, h3_index row = k) df)) <$> l).*1 = l) as ->.
  { intros l. induction l as [|k l IH]; [done|]. rewrite !fmap_cons. simpl. by f_equal. }
  apply (@StronglySorted_merge_sort _ str_le _).
  - intros a b c. apply str_le_trans.
  - intros a b. apply str_le_total.
Qed.

(** X19: the aggregates of a month come in increasing order of their cell
    identifiers, compared as strings. *)
Theorem aggregates_sorted df month aggs :
  blended_colors df month = inr aggs →
  StronglySorted str_le (cell_h3_index <$> aggs).
Proof.
  unfold blended_colors. intros [_ ->]%blend_groups_returns.
  eapply StronglySorted_sublist; [apply cell_keys_sublist|].
  apply groupby_keys_sorted.
Qed.

Lemma aggregates_sorted_witness :
  ∃ aggs, blended_colors three_cells "Jan" = inr aggs ∧
          cell_h3_index <$> aggs =
            ["8b60145a0000fff"; "8b60145a0001fff"; "8b60145a0002fff"] ∧
          StronglySorted str_le (cell_h3_index <$> aggs).
Proof.
  assert (∃ aggs, blended_colors three_cells "Jan" = inr aggs)
    as [aggs Ha] by (eexists; by vm_compute).
  exists aggs. split; [exact Ha|]. split.
  - vm_compute in Ha. injection Ha as <-. reflexivity.
  - exact (aggregates_sorted _ "Jan" aggs Ha).
Defined.

(** *** The files of a run *)

Lemma name_month_output args month ext :
  month ∈ MONTHS → name_month (output_name args month ext) = month.
Proof.
  unfold MONTHS. rewrite !elem_of_cons, elem_of_nil.
  intros H. repeat destruct H as [->|H]; try reflexivity. done.
Qed.

Lemma output_name_ext args month :
  output_name args month ".png" ≠ output_name args month ".geojson".
Proof.
  intros H. apply (f_equal String.length) in H.
  unfold output_name in H. rewrite !string_length_app in H. simpl in H. lia.
Qed.

Lemma cells_with_geometry_spec cell_to_boundary aggs :
  Forall (λ ap, ap.2 = h3_cell_to_polygon cell_to_boundary (cell_h3_index ap.1))
    (cells_with_geometry cell_to_boundary aggs) ∧
  (cells_with_geometry cell_to_boundary aggs).*1 = aggs.
Proof.
  unfold cells_with_geometry. induction aggs as [|a aggs [IH1 IH2]]; [done|].
  rewrite !fmap_cons. split; [by constructor|]. simpl. by f_equal.
Qed.

Lemma month_files cell_to_boundary args df month files :
  month ∈ MONTHS →
  month_iteration cell_to_boundary args df month = inr files →
  NoDup (file_name <$> files) ∧
  (length files ≤ match output_format args with both => 2 | _ => 1 end)%nat ∧
  Forall (λ f, name_month (file_name f) = month ∧ file_cells f ≠ [] ∧
               Forall (λ ap, ap.2 = h3_cell_to_polygon cell_to_boundary
                                      (cell_h3_index ap.1)) (file_cells f)) files.
Proof.
  intros Hm. rewrite month_iteration_eq.
  intros (aggs & _ & [= <-])%bind_inr.
  destruct aggs as [|a aggs].
  { split; [constructor|]. split; [destruct (output_format args); simpl; lia | done]. }
  pose proof (cells_with_geometry_spec cell_to_boundary (a :: aggs)) as [Hgeo _].
  assert (cells_with_geometry cell_to_boundary (a :: aggs) ≠ []) as Hne by done.
  set (cells := cells_with_geometry cell_to_boundary (a :: aggs)) in *.
  set (P := λ f : OutputFile,
         name_month (file_name f) = month ∧ file_cells f ≠ [] ∧
         Forall (λ ap, ap.2 = h3_cell_to_polygon cell_to_boundary
                                (cell_h3_index ap.1)) (file_cells f)).
  assert (∀ ext, P {| file_name := output_name args month ext; file_cells := cells |})
    as HP.
  { intros ext. split; [by apply name_month_output|]. by split. }
  pose proof (output_name_ext args month) as Hext.
  unfold save_outputs. destruct (output_format args).
  - split; [apply NoDup_singleton|]. split; [simpl; lia|].
    apply Forall_cons. split; [apply HP | apply Forall_nil_2].
  - split; [apply NoDup_singleton|]. split; [simpl; lia|].
    apply Forall_cons. split; [apply HP | apply Forall_nil_2].
  - split; [|split; [simpl; lia|]].
    + apply NoDup_cons. split; [|apply NoDup_singleton].
      intros [?|[]%elem_of_nil]%elem_of_cons. by apply Hext.
    + apply Forall_cons. split; [apply HP|].
      apply Forall_cons. split; [apply HP | apply Forall_nil_2].
Qed.

Lemma run_files cell_to_boundary args df months files :
  NoDup months → months ⊆ MONTHS →
  run_months cell_to_boundary args df months = inr files →
  NoDup (file_name <$> files) ∧
  (length files ≤
     match output_format args with both => 2 | _ => 1 end * length months)%nat ∧
  Forall (λ f, name_month (file_name f) ∈ months ∧ file_cells f ≠ [] ∧
               Forall (λ ap, ap.2 = h3_cell_to_polygon cell_to_boundary
                                      (cell_h3_index ap.1)) (file_cells f)) files.
Proof.
  revert files. induction months as [|month months IH]; intros files Hnd Hsub.
  - intros [= <-]. split; [constructor|]. split; [simpl; lia | done].
  - apply NoDup_cons in Hnd as [Hfresh Hnd]. simpl.
    intros (fs & Hfs & (rest & Hrest & [= <-])%bind_inr)%bind_inr.
    destruct (month_files _ _ _ _ _ ltac:(apply Hsub, list_elem_of_here) Hfs)
      as (Hnd1 & Hlen1 & Hall1).
    destruct (IH rest Hnd) as (Hnd2 & Hlen2 & Hall2); [|done|].
    { intros m Hin. apply Hsub. by apply list_elem_of_further. }
    rewrite Forall_forall in Hall1, Hall2.
    split; [|split].
    + rewrite fmap_app. apply NoDup_app. split; [done|]. split; [|done].
      intros name (f & -> & Hf)%list_elem_of_fmap (f' & E & Hf')%list_elem_of_fmap.
      destruct (Hall1 f Hf) as [Hm _]. destruct (Hall2 f' Hf') as [Hm' _].
      apply Hfresh. rewrite <- Hm, E. done.
    + rewrite length_app. simpl. lia.
    + apply Forall_app. split; apply Forall_forall; intros f Hf.
      * destruct (Hall1 f Hf) as (-> & ? & ?). split; [apply list_elem_of_here | done].
      * destruct (Hall2 f Hf) as (? & ? & ?). split; [by apply list_elem_of_further | done].
Qed.

(** X20: a run over the twelve months that ends without an exception
    saves files with pairwise distinct names, at most one per month and
    format; no file is without a cell, and every cell of a file carries the
    polygon of its own identifier. *)
Theorem run_saves_distinct_files cell_to_boundary args df files :
  run_months cell_to_boundary args df MONTHS = inr files →
  NoDup (file_name <$> files) ∧
  (length files ≤ match output_format args with both => 24 | _ => 12 end)%nat ∧
  Forall (λ f, file_cells f ≠ [] ∧
               Forall (λ ap, ap.2 = h3_cell_to_polygon cell_to_boundary
                                      (cell_h3_index ap.1)) (file_cells f)) files.
Proof.
  intros H.
  destruct (run_files cell_to_boundary args df MONTHS files MONTHS_NoDup) as (? & Hlen & Hall);
    [done | done |].
  split; [done|]. split.
  - change (length MONTHS) with 12%nat in Hlen.
    destruct (output_format args); simpl in *; lia.
  - eapply Forall_impl; [exact Hall|]. by intros f (_ & ? & ?).
Qed.

Lemma run_saves_distinct_files_witness :
  ∃ files,
    run_months (λ _, triangle) {| resolution := 11; output_format := both |}
      small_census MONTHS = inr files ∧
    NoDup (file_name <$> files) ∧ (length files ≤ 24)%nat.
Proof.
  assert (∃ files,
    run_months (λ _, triangle) {| resolution := 11; output_format := both |}
      small_census MONTHS = inr files) as [files Hf] by (eexists; by vm_compute).
  destruct (run_saves_distinct_files _ _ _ files Hf) as (Hnd & Hlen & _).
  exists files. split; [exact Hf|]. split; [exact Hnd | exact Hlen].
Defined.
